(** * Notebook reconciliation: the extension-host side of codeCell.ts

    A shallow embedding of the sequence diff engine ([diff], [pushSplice]),
    of the notebook document model ([ExtHostNotebookDocument]: the [cells]
    setter, [languages], [deleteCell], [eventuallyUpdateCells]) and of the
    mimetype resolution ([getMimeTypeOrder], [transformMimeTypes],
    [findBestMatchedRenderer]), followed by the properties the specification
    states about them. *)

From Equations Require Import Equations.
From Stdlib Require Import ZArith Lia Bool Ascii.
From stdpp Require Import gmap strings list sorting.

(* ===================================================================== *)
(** ** 1. Sequence diff engine *)
(* ===================================================================== *)

Module Diff.

(** [ISplice<T>] of vs/base/common/sequence, with the mutable [deleteCount]
    of [IMutableSplice<T>]. Indices and counts are array positions, hence
    natural numbers. *)
Record ISplice (T : Type) : Type := mkSplice {
  start : nat;
  deleteCount : nat;
  toInsert : list T
}.
Arguments mkSplice {T} _ _ _.
Arguments start {T} _.
Arguments deleteCount {T} _.
Arguments toInsert {T} _.

#[global] Instance ISplice_eq_dec {T} `{EqDecision T} : EqDecision (ISplice T).
Proof. solve_decision. Defined.

Section diff.
(** Elements are compared with [===]: on the object references the engine
    is used with (cells, outputs) that is a decidable, reflexive identity. *)
Context {T : Type} `{EqDecision T}.

(** The position one past the range a splice deletes. *)
Definition splice_end (s : ISplice T) : nat := start s + deleteCount s.

(** The inner function [pushSplice]; [result] is the array it closes over.
    [latest] is [result[result.length - 1]]; merging updates that entry in
    place, otherwise a new entry is pushed. *)
Definition pushSplice (result : list (ISplice T))
    (start0 deleteCount0 : nat) (toInsert0 : list T) : list (ISplice T) :=
  if (deleteCount0 =? 0) && (length toInsert0 =? 0) then result
  else
    match last result with
    | Some latest =>
        if start latest + deleteCount latest =? start0 then
          <[length result - 1 :=
              mkSplice (start latest)
                       (deleteCount latest + deleteCount0)
                       (toInsert latest ++ toInsert0)]> result
        else result ++ [mkSplice start0 deleteCount0 toInsert0]
    | None => result ++ [mkSplice start0 deleteCount0 toInsert0]
    end.

(** Reading [l !! i] together with the evidence of what was read, so that
    the loop's termination argument can use it. *)
Definition inspect {A : Type} (a : A) : {b : A | a = b} := exist _ a eq_refl.

Section loop.
Variables (before after : list T) (contains : T -> bool).

(** The [while (true)] loop of [diff] over its three mutable variables.
    Both indices start at 0 and only move one step at a time while in
    range, so [beforeIdx === before.length] is exactly the case where
    [before[beforeIdx]] is out of range (likewise for [after]); when
    [before] is exhausted, [after.slice(afterIdx)] is flushed.
    Each [continue] moves one of the indices forward, which is the
    measure of the recursion. *)
Equations? diff_loop (result : list (ISplice T)) (beforeIdx afterIdx : nat)
    : list (ISplice T)
    by wf ((length before - beforeIdx) + (length after - afterIdx)) lt :=
  diff_loop result beforeIdx afterIdx
    with inspect (before !! beforeIdx) := {
    | exist _ None _ =>
        pushSplice result beforeIdx 0 (drop afterIdx after)
    | exist _ (Some beforeElement) Hb
        with inspect (after !! afterIdx) := {
        | exist _ None _ =>
            pushSplice result beforeIdx (length before - beforeIdx) []
        | exist _ (Some afterElement) Ha =>
            if bool_decide (beforeElement = afterElement) then
              diff_loop result (beforeIdx + 1) (afterIdx + 1)
            else if contains afterElement then
              diff_loop (pushSplice result beforeIdx 1 [])
                        (beforeIdx + 1) afterIdx
            else
              diff_loop (pushSplice result beforeIdx 0 [afterElement])
                        beforeIdx (afterIdx + 1)
      }
    }.
Proof.
  all: apply lookup_lt_Some in Hb; apply lookup_lt_Some in Ha; lia.
Qed.
End loop.

(** [diff(before, after, contains)]: the loop run from an empty [result]
    with both indices at 0. *)
Definition diff (before after : list T) (contains : T -> bool)
    : list (ISplice T) :=
  diff_loop before after contains [] 0 0.

(** [Array.prototype.splice(start, deleteCount, ...toInsert)] on a list;
    [take] and [drop] clamp at the end of the array as [splice] does. *)
Definition splice (s : ISplice T) (l : list T) : list T :=
  take (start s) l ++ toInsert s ++ drop (start s + deleteCount s) l.

(** Applying splices one after the other to the array as it is mutated,
    first entry first. *)
Definition apply_in_order (splices : list (ISplice T)) (l : list T) : list T :=
  fold_left (fun acc s => splice s acc) splices l.

(** Applying them last entry first, as the consumers of the splices do
    ([splices.reverse().forEach(...)]). *)
Definition apply_reversed (splices : list (ISplice T)) (l : list T) : list T :=
  foldr splice l splices.

(** [fits lo n r]: the splices of [r] come in increasing order, the first
    one starts at [lo] or later, each starts strictly after the end of the
    one before it, and none reaches beyond position [n]. *)
Fixpoint fits (lo n : nat) (r : list (ISplice T)) : Prop :=
  match r with
  | [] => True
  | s :: rest => lo ≤ start s ∧ splice_end s ≤ n ∧ fits (S (splice_end s)) n rest
  end.

(** The invariant of the loop of [diff]. [edits before result i f]: the
    splices collected so far are ordered, separated and end at [i] or
    before, and applied to [before] they turn its first [i] elements into
    [f] and keep the rest. *)
Definition edits (before : list T) (result : list (ISplice T)) (i : nat)
    (f : list T) : Prop :=
  fits 0 i result ∧ apply_reversed result before = f ++ drop i before.

End diff.

End Diff.

(* ===================================================================== *)
(** ** 2. Glob patterns *)
(* ===================================================================== *)

Module Glob.

(** Modelled from the spec: [glob.parse] lives in vs/base/common/glob,
    which is not part of the sources at hand. The specification only says
    that an entry of a display order is "a glob-style pattern matched
    against a mimetype string"; the fragment used by display orders is
    modelled: every character stands for itself, except [*], which
    matches any run of characters within one segment (no [/]). *)
Fixpoint glob_match (pattern : string) : string → bool :=
  match pattern with
  | EmptyString =>
      λ s, match s with EmptyString => true | String _ _ => false end
  | String c pattern' =>
      if Ascii.eqb c "*"%char then
        fix star (s : string) : bool :=
          glob_match pattern' s ||
          match s with
          | EmptyString => false
          | String c' s' => if Ascii.eqb c' "/"%char then false else star s'
          end
      else
        λ s, match s with
             | EmptyString => false
             | String c' s' => Ascii.eqb c c' && glob_match pattern' s'
             end
  end.

Definition parse (pattern : string) : string → bool := glob_match pattern.

End Glob.

(* ===================================================================== *)
(** ** 3. Notebook document model and mimetype resolution *)
(* ===================================================================== *)

Module Notebook.
Import Diff.

(** *** Data *)

(** [vscode.CellOutput]: a union discriminated by [output_type]. A display
    output carries [data], an object from mimetype to content, kept as the
    list of its entries in property order (the order of [Object.keys]). *)
Inductive DisplayOutputType : Type := display_data | execute_result.

Record CellDisplayOutput : Type := mkDisplayOutput {
  output_type : DisplayOutputType;
  data : list (string * string)
}.

Inductive CellOutput : Type :=
  | CellStreamOutput (text : string)
  | CellErrorOutput (ename evalue : string) (traceback : list string)
  | CellDisplay (output : CellDisplayOutput).

Inductive CellType : Type := markdown | code.

(** [ExtHostCell]. A cell object is identified by its [handle], which the
    class draws from a counter and never reuses: two references are [===]
    exactly when they are the same record here. *)
Record ExtHostCell : Type := mkCell {
  handle : Z;
  source : list string;
  cell_type : CellType;
  language : string;
  outputs : list CellOutput
}.

#[global] Instance DisplayOutputType_eq_dec : EqDecision DisplayOutputType.
Proof. solve_decision. Defined.
#[global] Instance CellDisplayOutput_eq_dec : EqDecision CellDisplayOutput.
Proof. solve_decision. Defined.
#[global] Instance CellOutput_eq_dec : EqDecision CellOutput.
Proof. solve_decision. Defined.
#[global] Instance CellType_eq_dec : EqDecision CellType.
Proof. solve_decision. Defined.
#[global] Instance ExtHostCell_eq_dec : EqDecision ExtHostCell.
Proof. solve_decision. Defined.

(** [glob.ParsedPattern]: a compiled pattern is a predicate on strings. *)
Definition ParsedPattern : Type := string → bool.

Record ExtHostOutputDisplayOrder : Type := mkDisplayOrder {
  defaultOrder : list ParsedPattern;
  userOrder : option (list ParsedPattern)
}.

(** [ExtHostNotebookOutputRenderer]. [subTypes] is [filter.subTypes], which
    may be absent. [renderer] is the extension's [render] callback; the html
    it returns is taken as a function of the cell, the output and the
    mimetype. The callback is taken to return: [render] has no [try], so
    a callback that throws makes every caller throw, and such callbacks
    are outside this model. What is proved of [transformMimeTypes] and its
    callers is proved for renderers whose callbacks return. *)
Record ExtHostNotebookOutputRenderer : Type := mkRenderer {
  renderer_handle : Z;
  renderer_type : string;
  subTypes : option (list string);
  renderer : ExtHostCell → CellDisplayOutput → string → string
}.

(** [ExtHostNotebookOutputRenderingHandler], as [ExtHostNotebookController]
    implements it: the display order pushed by [$acceptDisplayOrder]
    ([undefined] until then) and the registered renderers, a [Map] read in
    insertion order. *)
Record ExtHostNotebookOutputRenderingHandler : Type := mkHandler {
  outputDisplayOrder : option ExtHostOutputDisplayOrder;
  _notebookOutputRenderers : list ExtHostNotebookOutputRenderer
}.

(** [IOrderedMimeType] and [ITransformedDisplayOutputDto]. *)
Record IOrderedMimeType : Type := mkOrderedMimeType {
  mimeType : string;
  isResolved : bool;
  rendererId : option Z;
  output : option string
}.

Record ITransformedDisplayOutputDto : Type := mkTransformed {
  dto_output_type : DisplayOutputType;
  dto_data : list (string * string);
  orderedMimeTypes : list IOrderedMimeType;
  pickedMimeTypeIndex : nat
}.

(** An output as it travels to the remote peer: transformed when it is a
    display output, as it is otherwise. *)
Inductive IOutput : Type :=
  | RawOutput (o : CellOutput)
  | TransformedOutput (t : ITransformedDisplayOutputDto).

Record ICellDto : Type := mkCellDto {
  dto_handle : Z;
  dto_source : list string;
  dto_language : string;
  dto_cell_type : CellType;
  dto_outputs : list IOutput;
  isDirty : bool
}.

(** [NotebookCellsSplice]: the triple [[start, deleteCount, cells]]. *)
Definition NotebookCellsSplice : Type := nat * nat * list ICellDto.

(** Modelled from the spec: [DisposableStore] lives in
    vs/base/common/lifecycle, which is not part of the sources at hand. The
    specification describes it as "a disposable bag holding the cell's
    output-change listener": a store holds disposables, [clear] disposes
    and drops them, [dispose] does so once and marks the store, [add] keeps
    one more disposable unless the store was disposed of. The only
    disposables stored here are listeners on a cell's [onDidChangeOutputs]. *)
Inductive IDisposable : Type := OutputsListener (cellHandle : Z).

Record DisposableStore : Type := mkStore {
  _toDispose : list IDisposable;
  _isDisposed : bool
}.

(** [ExtHostNotebookDocument]: its private fields and constructor
    parameters. *)
Record ExtHostNotebookDocument : Type := mkDocument {
  _cells : list ExtHostCell;
  _cellDisposableMapping : gmap Z DisposableStore;
  _languages : list string;
  _parsedDisplayOrder : list ParsedPattern;
  viewType : string;
  uri : string;
  renderingHandler : ExtHostNotebookOutputRenderingHandler
}.

(** *** Effects

    What the document does to its collaborators is recorded as a trace:
    calls on the remote peer ([this._proxy]), calls of renderers' [render],
    and listeners attached to or detached from a cell's output event. *)
Inductive ProxyCall : Type :=
  | spliceNotebookCells (viewType uri : string)
      (splices : list NotebookCellsSplice) (renderers : list Z)
  | updateNotebookLanguages (viewType uri : string) (languages : list string).

Inductive Event : Type :=
  | Proxy (call : ProxyCall)
  | Render (rendererHandle cellHandle : Z) (mimeType : string)
  | Subscribed (cellHandle : Z)
  | Unsubscribed (cellHandle : Z).

Inductive Error : Type := TypeError.

Inductive Outcome (A : Type) : Type :=
  | Ok (a : A)
  | Throw (e : Error).
Arguments Ok {A} _.
Arguments Throw {A} _.

Record World : Type := mkWorld {
  this : ExtHostNotebookDocument;
  trace : list Event
}.

(** A method of the document: it may change the document, extend the trace
    and return or throw. What was done before a throw stays done. *)
Definition M (A : Type) : Type := World → Outcome A * World.

#[global] Instance M_ret : MRet M := λ A a w, (Ok a, w).
#[global] Instance M_bind : MBind M := λ A B f m w,
  match m w with
  | (Ok a, w') => f a w'
  | (Throw e, w') => (Throw e, w')
  end.

Definition get_this : M ExtHostNotebookDocument := λ w, (Ok (this w), w).
Definition set_this (d : ExtHostNotebookDocument) : M unit :=
  λ w, (Ok tt, mkWorld d (trace w)).
Definition emit (e : Event) : M unit :=
  λ w, (Ok tt, mkWorld (this w) (trace w ++ [e])).
Definition throw {A : Type} (e : Error) : M A := λ w, (Throw e, w).

(** Assignments to the fields the methods write. *)
Definition with_cells (cells : list ExtHostCell) (d : ExtHostNotebookDocument)
    : ExtHostNotebookDocument :=
  mkDocument cells (_cellDisposableMapping d) (_languages d)
             (_parsedDisplayOrder d) (viewType d) (uri d) (renderingHandler d).

Definition with_mapping (mapping : gmap Z DisposableStore)
    (d : ExtHostNotebookDocument) : ExtHostNotebookDocument :=
  mkDocument (_cells d) mapping (_languages d)
             (_parsedDisplayOrder d) (viewType d) (uri d) (renderingHandler d).

Definition with_languages (languages : list string)
    (d : ExtHostNotebookDocument) : ExtHostNotebookDocument :=
  mkDocument (_cells d) (_cellDisposableMapping d) languages
             (_parsedDisplayOrder d) (viewType d) (uri d) (renderingHandler d).

(** [l.forEach(f)] *)
Fixpoint forEach {A : Type} (f : A → M unit) (l : list A) : M unit :=
  match l with
  | [] => mret tt
  | x :: rest => f x ;; forEach f rest
  end.

(** [l.map(f)] where [f] also updates a local variable of type [S]. *)
Fixpoint mapWith {A B S : Type} (f : S → A → M (B * S)) (acc : S) (l : list A)
    : M (list B * S) :=
  match l with
  | [] => mret ([], acc)
  | x :: rest =>
      '(y, acc) ← f acc x;
      '(ys, acc) ← mapWith f acc rest;
      mret (y :: ys, acc)
  end.

(** [array[index]] for a number index: [undefined] outside the array. *)
Definition array_get {A : Type} (l : list A) (index : Z) : option A :=
  if (index <? 0)%Z then None else l !! Z.to_nat index.

(** [array.splice(start, deleteCount)] for a number [start]: a negative
    start counts from the end, and everything is clamped to the array. *)
Definition array_splice {A : Type} (l : list A) (start0 : Z) (deleteCount0 : nat)
    : list A :=
  let actualStart :=
    if (start0 <? 0)%Z then Z.to_nat (Z.max (Z.of_nat (length l) + start0) 0)
    else Z.to_nat start0 in
  take actualStart l ++ drop (actualStart + deleteCount0) l.

(** [Set.prototype.add], the set kept in insertion order. *)
Definition set_add (x : Z) (s : list Z) : list Z :=
  if bool_decide (x ∈ s) then s else s ++ [x].

(** [Array.prototype.sort(compareFn)]. The sort is stable and [compareFn]
    is only ever a difference of ranks, so the result is the one an
    insertion sort gives: an element goes before the first one that
    [compareFn] puts strictly after it. *)
Fixpoint sort_insert {A : Type} (compareFn : A → A → Z) (x : A) (sorted : list A)
    : list A :=
  match sorted with
  | [] => [x]
  | y :: rest =>
      if (compareFn x y <=? 0)%Z then x :: y :: rest
      else y :: sort_insert compareFn x rest
  end.

Definition sort {A : Type} (compareFn : A → A → Z) (l : list A) : list A :=
  foldr (sort_insert compareFn) [] l.

(** *** DisposableStore *)

Definition dispose_one (d : IDisposable) : M unit :=
  match d with OutputsListener h => emit (Unsubscribed h) end.

Definition new_DisposableStore : DisposableStore := mkStore [] false.

Definition store_clear (store : DisposableStore) : M DisposableStore :=
  forEach dispose_one (_toDispose store) ;;
  mret (mkStore [] (_isDisposed store)).

Definition store_dispose (store : DisposableStore) : M DisposableStore :=
  if _isDisposed store then mret store
  else store_clear (mkStore (_toDispose store) true).

Definition store_add (d : IDisposable) (store : DisposableStore) : DisposableStore :=
  if _isDisposed store then store
  else mkStore (_toDispose store ++ [d]) (_isDisposed store).

(** *** Renderers *)

(** [ExtHostNotebookOutputRenderer.matches] *)
Definition matches (r : ExtHostNotebookOutputRenderer) (mimeType0 : string) : bool :=
  match subTypes r with
  | Some types => bool_decide (mimeType0 ∈ types)
  | None => false
  end.

(** [ExtHostNotebookOutputRenderer.render] *)
Definition render (r : ExtHostNotebookOutputRenderer) (cell : ExtHostCell)
    (output0 : CellDisplayOutput) (mimeType0 : string) : M string :=
  emit (Render (renderer_handle r) (handle cell) mimeType0) ;;
  mret (renderer r cell output0 mimeType0).

(** [ExtHostNotebookController.findBestMatchedRenderer] *)
Definition findBestMatchedRenderer (h : ExtHostNotebookOutputRenderingHandler)
    (mimeType0 : string) : list ExtHostNotebookOutputRenderer :=
  filter (λ r, matches r mimeType0 = true) (_notebookOutputRenderers h).

(** *** Mimetype rank *)

(** How one of the three [for] loops of [getMimeTypeOrder] ends: with a
    [return order], or by running off the list with [order] advanced. *)
Inductive LoopExit : Type :=
  | Return (order : nat)
  | Fallthrough (order : nat).

Fixpoint scanOrder (patterns : list ParsedPattern) (mimeType0 : string)
    (order : nat) : LoopExit :=
  match patterns with
  | [] => Fallthrough order
  | pattern :: rest =>
      if pattern mimeType0 then Return order
      else scanOrder rest mimeType0 (order + 1)
  end.

(** [ExtHostNotebookDocument.getMimeTypeOrder] *)
Definition getMimeTypeOrder (doc : ExtHostNotebookDocument) (mimeType0 : string)
    : nat :=
  let order := 0 in
  match outputDisplayOrder (renderingHandler doc) with
  | Some coreDisplayOrder =>
      let user :=
        match userOrder coreDisplayOrder with
        | Some userDisplayOrder => scanOrder userDisplayOrder mimeType0 order
        | None => Fallthrough order
        end in
      match user with
      | Return order => order
      | Fallthrough order =>
          match scanOrder (_parsedDisplayOrder doc) mimeType0 order with
          | Return order => order
          | Fallthrough order =>
              match scanOrder (defaultOrder coreDisplayOrder) mimeType0 order with
              | Return order => order
              | Fallthrough order => order
              end
          end
      end
  | None => order
  end.

(** The rank as the specification words it: the index of the first matching
    pattern, scanning the user order, then the document order, then the
    default order, each list's indices offset by the lengths of the lists
    before it; the total number of patterns when none matches. *)
Fixpoint first_match (patterns : list ParsedPattern) (mimeType0 : string)
    : option nat :=
  match patterns with
  | [] => None
  | pattern :: rest =>
      if pattern mimeType0 then Some 0 else S <$> first_match rest mimeType0
  end.

Definition rank_spec (userOrder0 documentOrder0 defaultOrder0 : list ParsedPattern)
    (mimeType0 : string) : nat :=
  match first_match userOrder0 mimeType0 with
  | Some i => i
  | None =>
      match first_match documentOrder0 mimeType0 with
      | Some i => length userOrder0 + i
      | None =>
          match first_match defaultOrder0 mimeType0 with
          | Some i => length userOrder0 + length documentOrder0 + i
          | None =>
              length userOrder0 + length documentOrder0 + length defaultOrder0
          end
      end
  end.

(** *** Reading a trace *)

(** The calls on the remote peer that a trace holds, in order. *)
Definition proxy_calls (t : list Event) : list ProxyCall :=
  omap (λ e, match e with Proxy call => Some call | _ => None end) t.

(** The [render] calls that stand behind the resolved candidates of a list:
    one call of the candidate's renderer, for the candidate's mimetype. *)
Definition render_calls (cell : ExtHostCell) (candidates : list IOrderedMimeType)
    : list Event :=
  omap (λ c, if isResolved c
             then (λ id, Render id (handle cell) (mimeType c)) <$> rendererId c
             else None)
       candidates.

(** The [render] calls of a trace that are made for one mimetype. *)
Definition is_render_of (mimeType0 : string) (e : Event) : bool :=
  match e with
  | Render _ _ m => bool_decide (m = mimeType0)
  | _ => false
  end.

Definition renders_of (mimeType0 : string) (t : list Event) : list Event :=
  filter (λ e, is_render_of mimeType0 e = true) t.

(** What disposing of the disposables of a store does to the listeners. *)
Definition disposal_events (store : DisposableStore) : list Event :=
  map (λ d, match d with OutputsListener h => Unsubscribed h end) (_toDispose store).

(** *** The document's methods *)

Section methods.
(** [mimeTypeSupportedByCore] is imported from notebookCommon, which is
    not part of the sources at hand: it is a parameter of the model. *)
Variable mimeTypeSupportedByCore : string → bool.

(** The body of [sorted.forEach(mimeType => ...)] in [transformMimeTypes]:
    the candidates one mimetype contributes to [orderMimeTypes]. *)
Definition transformMimeType (cell : ExtHostCell) (output0 : CellDisplayOutput)
    (mimeType0 : string) : M (list IOrderedMimeType) :=
  doc ← get_this;
  let handlers := findBestMatchedRenderer (renderingHandler doc) mimeType0 in
  match handlers with
  | first :: others =>
      renderedOutput ← render first cell output0 mimeType0;
      mret ([mkOrderedMimeType mimeType0 true (Some (renderer_handle first))
                               (Some renderedOutput)]
            ++ map (λ h, mkOrderedMimeType mimeType0 false
                                           (Some (renderer_handle h)) None)
                   others
            ++ (if mimeTypeSupportedByCore mimeType0
                then [mkOrderedMimeType mimeType0 false (Some (-1)%Z) None]
                else []))
  | [] => mret [mkOrderedMimeType mimeType0 false None None]
  end.

(** The same candidates as a value: what [transformMimeType] pushes for a
    mimetype on a given document, the html of the first renderer taken
    from its callback. *)
Definition candidatesFor (doc : ExtHostNotebookDocument) (cell : ExtHostCell)
    (output0 : CellDisplayOutput) (mimeType0 : string) : list IOrderedMimeType :=
  match findBestMatchedRenderer (renderingHandler doc) mimeType0 with
  | first :: others =>
      [mkOrderedMimeType mimeType0 true (Some (renderer_handle first))
                         (Some (renderer first cell output0 mimeType0))]
      ++ map (λ h, mkOrderedMimeType mimeType0 false
                                     (Some (renderer_handle h)) None)
             others
      ++ (if mimeTypeSupportedByCore mimeType0
          then [mkOrderedMimeType mimeType0 false (Some (-1)%Z) None]
          else [])
  | [] => [mkOrderedMimeType mimeType0 false None None]
  end.

Fixpoint transformEach (cell : ExtHostCell) (output0 : CellDisplayOutput)
    (sorted : list string) (orderMimeTypes : list IOrderedMimeType)
    : M (list IOrderedMimeType) :=
  match sorted with
  | [] => mret orderMimeTypes
  | mimeType0 :: rest =>
      pushed ← transformMimeType cell output0 mimeType0;
      transformEach cell output0 rest (orderMimeTypes ++ pushed)
  end.

(** [ExtHostNotebookDocument.transformMimeTypes] *)
Definition transformMimeTypes (cell : ExtHostCell) (output0 : CellDisplayOutput)
    : M ITransformedDisplayOutputDto :=
  doc ← get_this;
  let mimeTypes := (data output0).*1 in
  let sorted :=
    sort (λ a b, (Z.of_nat (getMimeTypeOrder doc a)
                  - Z.of_nat (getMimeTypeOrder doc b))%Z) mimeTypes in
  orderMimeTypes ← transformEach cell output0 sorted [];
  mret (mkTransformed (output_type output0) (data output0) orderMimeTypes 0).

(** The callback of [outputs.map(...)] in [eventuallyUpdateCells];
    [renderers] is the set the method collects. Reading [isResolved] off
    a missing candidate is a [TypeError]. A resolved candidate always
    carries the handle of its renderer. *)
Definition transformOutput (cell : ExtHostCell) (renderers : list Z)
    (output0 : CellOutput) : M (IOutput * list Z) :=
  match output0 with
  | CellDisplay display =>
      ret ← transformMimeTypes cell display;
      match orderedMimeTypes ret !! pickedMimeTypeIndex ret with
      | None => throw TypeError
      | Some picked =>
          let renderers :=
            if isResolved picked then
              match rendererId picked with
              | Some id => set_add id renderers
              | None => renderers
              end
            else renderers in
          mret (TransformedOutput ret, renderers)
      end
  | _ => mret (RawOutput output0, renderers)
  end.

(** The callback of [inserts.map(...)]. *)
Definition cellToDto (renderers : list Z) (cell : ExtHostCell)
    : M (ICellDto * list Z) :=
  '(outputs0, renderers) ← mapWith (transformOutput cell) renderers (outputs cell);
  mret (mkCellDto (handle cell) (source cell) (language cell) (cell_type cell)
                  outputs0 false,
        renderers).

(** The callback of [diffs.map(...)]. *)
Definition spliceToDto (renderers : list Z) (diff0 : ISplice ExtHostCell)
    : M (NotebookCellsSplice * list Z) :=
  '(cellDtos, renderers) ← mapWith cellToDto renderers (toInsert diff0);
  mret ((start diff0, deleteCount diff0, cellDtos), renderers).

(** [ExtHostNotebookDocument.eventuallyUpdateCells] *)
Definition eventuallyUpdateCells (diffs : list (ISplice ExtHostCell)) : M unit :=
  '(diffDtos, renderers) ← mapWith spliceToDto [] diffs;
  doc ← get_this;
  emit (Proxy (spliceNotebookCells (viewType doc) (uri doc) diffDtos renderers)).

(** The [for] loop of the [cells] setter, at index [i]:
    [this._cellDisposableMapping.get(this._cells[i].handle)?.clear()]
    and [this._cellDisposableMapping.delete(this._cells[i].handle)]. *)
Definition unwireCellAt (i : nat) : M unit :=
  doc ← get_this;
  match _cells doc !! i with
  | None => throw TypeError
  | Some cell =>
      match _cellDisposableMapping doc !! handle cell with
      | Some store => store_clear store ;; mret tt
      | None => mret tt
      end ;;
      doc ← get_this;
      set_this (with_mapping (delete (handle cell) (_cellDisposableMapping doc)) doc)
  end.

(** The callback of [diff.toInsert.forEach(...)] of the [cells] setter: a
    new store is set under the cell's handle, then read back and given
    the listener on the cell's output event. *)
Definition wireCell (cell : ExtHostCell) : M unit :=
  doc ← get_this;
  set_this (with_mapping (<[handle cell := new_DisposableStore]>
                            (_cellDisposableMapping doc)) doc) ;;
  doc ← get_this;
  match _cellDisposableMapping doc !! handle cell with
  | Some store =>
      emit (Subscribed (handle cell)) ;;
      doc ← get_this;
      set_this (with_mapping
                  (<[handle cell := store_add (OutputsListener (handle cell)) store]>
                     (_cellDisposableMapping doc)) doc)
  | None => mret tt
  end.

(** [set cells(newCells)] *)
Definition set_cells (newCells : list ExtHostCell) : M unit :=
  doc ← get_this;
  let diffs :=
    diff (_cells doc) newCells
         (λ a, bool_decide (is_Some (_cellDisposableMapping doc !! handle a))) in
  forEach (λ diff0,
             forEach unwireCellAt (seq (start diff0) (deleteCount diff0)) ;;
             forEach wireCell (toInsert diff0))
          diffs ;;
  doc ← get_this;
  set_this (with_cells newCells doc) ;;
  eventuallyUpdateCells diffs.

(** [get languages()]: [return this._languages = []] *)
Definition get_languages : M (list string) :=
  doc ← get_this;
  set_this (with_languages [] doc) ;;
  mret [].

(** [set languages(newLanguages)] *)
Definition set_languages (newLanguages : list string) : M unit :=
  doc ← get_this;
  set_this (with_languages newLanguages doc) ;;
  doc ← get_this;
  emit (Proxy (updateNotebookLanguages (viewType doc) (uri doc) (_languages doc))).

(** [ExtHostNotebookDocument.deleteCell]. [index] is a number received
    from the remote peer. Reading [handle] off [undefined] is a
    [TypeError]. *)
Definition deleteCell (index : Z) : M bool :=
  doc ← get_this;
  if (Z.of_nat (length (_cells doc)) <=? index)%Z then mret false
  else
    match array_get (_cells doc) index with
    | None => throw TypeError
    | Some cell =>
        match _cellDisposableMapping doc !! handle cell with
        | Some store => store_dispose store ;; mret tt
        | None => mret tt
        end ;;
        doc ← get_this;
        set_this (with_mapping (delete (handle cell) (_cellDisposableMapping doc)) doc) ;;
        doc ← get_this;
        set_this (with_cells (array_splice (_cells doc) index 1) doc) ;;
        mret true
    end.

End methods.

End Notebook.

(* ===================================================================== *)
(** ** 4. Concrete documents *)
(* ===================================================================== *)

(** The documents, cells and outputs on which the properties below are
    tried out. *)
Module Scenario.
Import Notebook.

(** No mimetype is rendered by the core. *)
Definition noCoreSupport : string → bool := λ _, false.

Definition aCell : ExtHostCell := mkCell 0 ["1 + 1"] code "python" [].

(** An output with data [{'text/plain': 'x', 'image/png': 'y'}]. *)
Definition twoMimeTypes : CellDisplayOutput :=
  mkDisplayOutput display_data [("text/plain", "x"); ("image/png", "y")].

Definition textRenderer : ExtHostNotebookOutputRenderer :=
  mkRenderer 10 "text" (Some ["text/plain"]) (λ _ _ _, "<pre>x</pre>").

Definition imageRenderer : ExtHostNotebookOutputRenderer :=
  mkRenderer 11 "image" (Some ["image/png"]) (λ _ _ _, "<img>").

(** A document whose controller has two renderers and has not received a
    display order yet. *)
Definition twoRenderers : ExtHostNotebookDocument :=
  mkDocument [] ∅ [] [] "notebook" "file:///a.ipynb"
             (mkHandler None [textRenderer; imageRenderer]).

(** A document with a display order of its own, [image/*] then
    [text/plain], whose controller has not received a display order yet. *)
Definition documentOrderOnly : ExtHostNotebookDocument :=
  mkDocument [] ∅ [] [Glob.parse "image/*"; Glob.parse "text/plain"]
             "notebook" "file:///a.ipynb" (mkHandler None []).

(** User order [image/*], no document order, default order
    [text/plain, text/html], and one renderer, for image/png. *)
Definition userPrefersImages : ExtHostNotebookDocument :=
  mkDocument [] ∅ [] [] "notebook" "file:///a.ipynb"
             (mkHandler
                (Some (mkDisplayOrder [Glob.parse "text/plain"; Glob.parse "text/html"]
                                      (Some [Glob.parse "image/*"])))
                [imageRenderer]).

Definition cell1 : ExtHostCell := mkCell 1 ["a"] code "python" [].
Definition cell2 : ExtHostCell := mkCell 2 ["b"] code "python" [].
Definition cell3 : ExtHostCell := mkCell 3 ["c"] markdown "markdown" [].

(** Three cells, each with a store that holds the listener on its outputs. *)
Definition threeCells : ExtHostNotebookDocument :=
  mkDocument [cell1; cell2; cell3]
             (<[1%Z := mkStore [OutputsListener 1] false]>
                (<[2%Z := mkStore [OutputsListener 2] false]>
                   (<[3%Z := mkStore [OutputsListener 3] false]> ∅)))
             [] [] "notebook" "file:///a.ipynb" (mkHandler None []).

End Scenario.

(* ===================================================================== *)
(** ** 5. Reading a list of splices *)
(* ===================================================================== *)

Module DiffViews.
Import Diff.

Section views.
Context {T : Type}.

(** How many elements a list of splices deletes, and how many it inserts. *)
Definition deleted_total (r : list (ISplice T)) : nat :=
  sum_list (deleteCount <$> r).

Definition inserted_total (r : list (ISplice T)) : nat :=
  sum_list ((λ s, length (toInsert s)) <$> r).

(** A splice moved [k] positions to the right. *)
Definition shift_splice (k : nat) (s : ISplice T) : ISplice T :=
  mkSplice (k + start s) (deleteCount s) (toInsert s).

(** Applying splices first entry first to the array as it is mutated, each
    start moved by what the splices before it have inserted and deleted. *)
Fixpoint apply_shifted (inserted deleted : nat) (splices : list (ISplice T))
    (l : list T) : list T :=
  match splices with
  | [] => l
  | s :: rest =>
      apply_shifted (inserted + length (toInsert s)) (deleted + deleteCount s) rest
        (splice (mkSplice (start s + inserted - deleted) (deleteCount s) (toInsert s)) l)
  end.

End views.

Section bookkeeping.
(** The bookkeeping that both setters ([set outputs] of a cell, [set cells]
    of a document) run over the splices of a diff: a set of keys, from
    which each splice first removes the keys of the elements of [before]
    in its deleted range and to which it then adds the keys of the
    elements it inserts. The set is read through its members, kept in a
    list. *)
Context {T K : Type} `{EqDecision K} (key : T → K).

Definition removed_keys (before : list T) (s : ISplice T) : list K :=
  key <$> take (deleteCount s) (drop (start s) before).

Definition keep_books (before : list T) (members : list K) (s : ISplice T)
    : list K :=
  filter (λ k, k ∉ removed_keys before s) members ++ (key <$> toInsert s).

Definition books (before : list T) (r : list (ISplice T)) (members : list K)
    : list K :=
  foldl (keep_books before) members r.

End bookkeeping.

End DiffViews.

(* ===================================================================== *)
(** ** 6. The outputs of a cell *)
(* ===================================================================== *)

Module CellOutputs.
Import Diff.

Section outputs.
(** The outputs of a cell are objects compared by identity ([===] in
    [diff], membership in a [Set]). *)
Context {T : Type} `{EqDecision T}.

(** [Set<T>], kept as the list of its members in insertion order. *)
Definition Set_has (members : list T) (x : T) : bool := bool_decide (x ∈ members).

Definition Set_add (members : list T) (x : T) : list T :=
  if bool_decide (x ∈ members) then members else members ++ [x].

Definition Set_delete (members : list T) (x : T) : list T :=
  filter (λ y, y ≠ x) members.

(** The two private fields of [ExtHostCell] that [set outputs] works on.
    The constructor stores the outputs it is given and starts with an empty
    [_outputMapping]. *)
Record ExtHostCellOutputs : Type := mkOutputs {
  _outputs : list T;
  _outputMapping : list T
}.

Definition new_ExtHostCell (outputs0 : list T) : ExtHostCellOutputs :=
  mkOutputs outputs0 [].

(** The [for] loop of [set outputs] for one splice:
    [this._outputMapping.delete(this._outputs[i])]. Deleting [undefined]
    from the set does nothing. *)
Definition forget_outputs (outputs0 : list T) (mapping : list T) (diff0 : ISplice T)
    : list T :=
  foldl (λ m i, match outputs0 !! i with
                | Some x => Set_delete m x
                | None => m
                end)
        mapping (seq (start diff0) (deleteCount diff0)).

(** The callback of [diffs.forEach] in [set outputs]. *)
Definition track_outputs (outputs0 : list T) (mapping : list T) (diff0 : ISplice T)
    : list T :=
  foldl Set_add (forget_outputs outputs0 mapping diff0) (toInsert diff0).

(** [set outputs(newOutputs)]: the cell afterwards, and the splices fired
    on [_onDidChangeOutputs]. *)
Definition set_outputs (newOutputs : list T) (cell : ExtHostCellOutputs)
    : ExtHostCellOutputs * list (ISplice T) :=
  let diffs := diff (_outputs cell) newOutputs (Set_has (_outputMapping cell)) in
  let mapping := foldl (track_outputs (_outputs cell)) (_outputMapping cell) diffs in
  (mkOutputs newOutputs mapping, diffs).

End outputs.

End CellOutputs.

(* ===================================================================== *)
(** ** 7. Further methods of the document *)
(* ===================================================================== *)

Module NotebookOps.
Import Diff Notebook.

(** [array.splice(start, 0, item)] for a number [start], clamped to the
    array as [array_splice] is. *)
Definition array_insert {A : Type} (l : list A) (start0 : Z) (item : A) : list A :=
  let actualStart :=
    if (start0 <? 0)%Z then Z.to_nat (Z.max (Z.of_nat (length l) + start0) 0)
    else Z.to_nat start0 in
  take actualStart l ++ item :: drop actualStart l.

(** [ExtHostNotebookDocument.insertCell]: the cell is spliced into the
    list, a store is made for its handle unless there is one, and the
    store is given a listener on the cell's outputs. The remote peer is
    not called. *)
Definition insertCell (index : Z) (cell : ExtHostCell) : M unit :=
  doc ← get_this;
  set_this (with_cells (array_insert (_cells doc) index cell) doc) ;;
  doc ← get_this;
  (if bool_decide (is_Some (_cellDisposableMapping doc !! handle cell))
   then mret tt
   else set_this (with_mapping (<[handle cell := new_DisposableStore]>
                                  (_cellDisposableMapping doc)) doc)) ;;
  doc ← get_this;
  match _cellDisposableMapping doc !! handle cell with
  | None => throw TypeError
  | Some store =>
      emit (Subscribed (handle cell)) ;;
      doc ← get_this;
      set_this (with_mapping
                  (<[handle cell := store_add (OutputsListener (handle cell)) store]>
                     (_cellDisposableMapping doc)) doc)
  end.

(** [ExtHostNotebookDocument.getCell]: [this.cells.find(...)]. *)
Definition getCell (doc : ExtHostNotebookDocument) (cellHandle : Z)
    : option ExtHostCell :=
  List.find (λ cell, bool_decide (handle cell = cellHandle)) (_cells doc).

(** [ExtHostNotebookDocument.findRichestMimeType] *)
Definition findRichestMimeType (doc : ExtHostNotebookDocument) (output0 : CellOutput)
    : option string :=
  match output0 with
  | CellDisplay display =>
      let mimeTypes := (data display).*1 in
      let sorted :=
        sort (λ a b, (Z.of_nat (getMimeTypeOrder doc a)
                      - Z.of_nat (getMimeTypeOrder doc b))%Z) mimeTypes in
      match sorted with
      | first :: _ => Some first
      | [] => None
      end
  | _ => None
  end.

End NotebookOps.

(* ===================================================================== *)
(** ** 8. The text of a cell *)
(* ===================================================================== *)

Module CellText.

Definition CR : ascii := Ascii.ascii_of_nat 13.
Definition LF : ascii := Ascii.ascii_of_nat 10.

(** The regular expression [/\r|\n|\r\n/] tried at the head of a string:
    the length of what the first alternative that matches consumes. The
    alternatives are tried in the order they are written. *)
Definition separator_length (s : string) : option nat :=
  match s with
  | EmptyString => None
  | String c rest =>
      if Ascii.eqb c CR then Some 1
      else if Ascii.eqb c LF then Some 1
      else if Ascii.eqb c CR then
        match rest with
        | String c' _ => if Ascii.eqb c' LF then Some 2 else None
        | EmptyString => None
        end
      else None
  end.

(** [s.split(/\r|\n|\r\n/g)]; [piece] is what has been read since the last
    separator. *)
Fixpoint split_from (piece : string) (s : string) : list string :=
  match s with
  | EmptyString => [piece]
  | String c rest =>
      match separator_length s with
      | None => split_from (piece +:+ String c EmptyString) rest
      | Some 1 => piece :: split_from EmptyString rest
      | Some _ =>
          piece :: match rest with
                   | String _ rest' => split_from EmptyString rest'
                   | EmptyString => [EmptyString]
                   end
      end
  end.

Definition split_lines (s : string) : list string := split_from EmptyString s.

(** [parts.join(separator)] *)
Fixpoint join (separator : string) (parts : list string) : string :=
  match parts with
  | [] => EmptyString
  | [x] => x
  | x :: rest => x +:+ separator +:+ join separator rest
  end.

(** A string with every carriage return replaced by a line feed. *)
Fixpoint lf_only (s : string) : string :=
  match s with
  | EmptyString => EmptyString
  | String c rest => String (if Ascii.eqb c CR then LF else c) (lf_only rest)
  end.

(** Whether a character is a carriage return or a line feed. *)
Definition is_line_break (c : ascii) : bool := Ascii.eqb c CR || Ascii.eqb c LF.

Fixpoint count_line_breaks (s : string) : nat :=
  match s with
  | EmptyString => 0
  | String c rest => (if is_line_break c then 1 else 0) + count_line_breaks rest
  end.

(** [vscode.TextDocument], as far as a cell reads it. The cell keeps a
    reference to the document; what the document holds at the time of a
    call is looked up in the documents of the editor. *)
Record TextDocument : Type := mkTextDocument {
  version : Z;
  getText : string
}.

(** The fields of [ExtHostCell] that its text lives in. *)
Record ExtHostCellText : Type := mkCellText {
  source : list string;
  _textDocument : option nat;
  _initalVersion : Z
}.

(** The constructor: [this.source = this._content.split(/\r|\n|\r\n/g)]. *)
Definition new_ExtHostCell (_content : string) : ExtHostCellText :=
  mkCellText (split_lines _content) None (-1).

Section methods.
Variable documents : nat → TextDocument.

(** [ExtHostCell.getContent] *)
Definition getContent (cell : ExtHostCellText) : string :=
  match _textDocument cell with
  | Some document =>
      if bool_decide (_initalVersion cell ≠ version (documents document))
      then getText (documents document)
      else join (String LF EmptyString) (source cell)
  | None => join (String LF EmptyString) (source cell)
  end.

(** [ExtHostCell.attachTextDocument] *)
Definition attachTextDocument (document : nat) (cell : ExtHostCellText)
    : ExtHostCellText :=
  mkCellText (source cell) (Some document) (version (documents document)).

(** [ExtHostCell.detachTextDocument]: the document it is passed is not
    looked at, the one that was attached is. *)
Definition detachTextDocument (document : nat) (cell : ExtHostCellText)
    : ExtHostCellText :=
  let source0 :=
    match _textDocument cell with
    | Some attached =>
        if bool_decide (version (documents attached) ≠ _initalVersion cell)
        then split_lines (getText (documents attached))
        else source cell
    | None => source cell
    end in
  mkCellText source0 None (-1).

End methods.

End CellText.

(* ===================================================================== *)
(** ** 9. The registries of the controller *)
(* ===================================================================== *)

Module Registry.
Import Notebook.

(** The calls that registering and unregistering make on the remote peer. *)
Inductive PeerCall : Type :=
  | call_registerNotebookRenderer (extension type0 : string)
      (filter0 : option (list string)) (handle0 : Z) (preloads : list string)
  | call_unregisterNotebookRenderer (handle0 : Z)
  | call_registerNotebookProvider (extension viewType0 : string)
  | call_unregisterNotebookProvider (viewType0 : string).

(** [ExtHostNotebookController], as far as registration goes: the
    providers by view type (each with the extension it comes from), what
    the controller holds as rendering handler, the counter that
    [ExtHostNotebookOutputRenderer] draws its handles from, and the calls
    made on the remote peer. *)
Record ExtHostNotebookController : Type := mkController {
  _notebookProviders : gmap string string;
  rendering : ExtHostNotebookOutputRenderingHandler;
  _handlePool : Z;
  calls : list PeerCall
}.

(** [Map.prototype.set] on the renderers, a map keyed by handle and kept in
    insertion order: the entry of a key that is there is replaced where it
    is, a new key goes to the end. *)
Fixpoint Map_set (r : ExtHostNotebookOutputRenderer)
    (entries : list ExtHostNotebookOutputRenderer)
    : list ExtHostNotebookOutputRenderer :=
  match entries with
  | [] => [r]
  | e :: rest =>
      if bool_decide (renderer_handle e = renderer_handle r) then r :: rest
      else e :: Map_set r rest
  end.

(** [Map.prototype.delete] *)
Definition Map_delete (handle0 : Z) (entries : list ExtHostNotebookOutputRenderer)
    : list ExtHostNotebookOutputRenderer :=
  filter (λ e, renderer_handle e ≠ handle0) entries.

(** [registerNotebookOutputRenderer]: the handle of the new renderer (what
    the returned disposable closes over) and the controller afterwards. *)
Definition registerNotebookOutputRenderer (type0 extension : string)
    (filter0 : option (list string))
    (render0 : ExtHostCell → CellDisplayOutput → string → string)
    (preloads : list string) (c : ExtHostNotebookController)
    : Z * ExtHostNotebookController :=
  let extHostRenderer := mkRenderer (_handlePool c) type0 filter0 render0 in
  (renderer_handle extHostRenderer,
   mkController
     (_notebookProviders c)
     (mkHandler (outputDisplayOrder (rendering c))
                (Map_set extHostRenderer (_notebookOutputRenderers (rendering c))))
     (_handlePool c + 1)
     (calls c ++ [call_registerNotebookRenderer extension type0 filter0
                    (renderer_handle extHostRenderer) preloads])).

(** What the disposable returned by [registerNotebookOutputRenderer] does. *)
Definition dispose_renderer (handle0 : Z) (c : ExtHostNotebookController)
    : ExtHostNotebookController :=
  mkController
    (_notebookProviders c)
    (mkHandler (outputDisplayOrder (rendering c))
               (Map_delete handle0 (_notebookOutputRenderers (rendering c))))
    (_handlePool c)
    (calls c ++ [call_unregisterNotebookRenderer handle0]).

(** [registerNotebookProvider]: an [Error] when the view type has a
    provider, the controller afterwards otherwise. *)
Inductive Registration : Type :=
  | AlreadyRegistered (viewType0 : string)
  | Registered (c : ExtHostNotebookController).

Definition registerNotebookProvider (extension viewType0 : string)
    (c : ExtHostNotebookController) : Registration :=
  if bool_decide (is_Some (_notebookProviders c !! viewType0))
  then AlreadyRegistered viewType0
  else Registered
         (mkController
            (<[viewType0 := extension]> (_notebookProviders c))
            (rendering c) (_handlePool c)
            (calls c ++ [call_registerNotebookProvider extension viewType0])).

(** What the disposable returned by [registerNotebookProvider] does. *)
Definition dispose_provider (viewType0 : string) (c : ExtHostNotebookController)
    : ExtHostNotebookController :=
  mkController
    (delete viewType0 (_notebookProviders c))
    (rendering c) (_handlePool c)
    (calls c ++ [call_unregisterNotebookProvider viewType0]).

(** The renderers of a controller have different handles, all drawn from
    the counter. *)
Definition handles_drawn (c : ExtHostNotebookController) : Prop :=
  NoDup (renderer_handle <$> _notebookOutputRenderers (rendering c))
  ∧ Forall (λ r, (renderer_handle r < _handlePool c)%Z)
           (_notebookOutputRenderers (rendering c)).

End Registry.

(* ===================================================================== *)
(** * Properties *)
(* ===================================================================== *)

(** ** Properties of the diff engine *)

Module DiffFacts.
Import Diff.

Section facts.
Context {T : Type} `{EqDecision T}.
Implicit Types (r result : list (ISplice T)) (s latest : ISplice T).
Implicit Types (l before after ins : list T).

(** One turn of the loop, as a rewriting rule. *)
Lemma diff_loop_step before after contains result beforeIdx afterIdx :
  diff_loop before after contains result beforeIdx afterIdx =
  match before !! beforeIdx with
  | None => pushSplice result beforeIdx 0 (drop afterIdx after)
  | Some beforeElement =>
      match after !! afterIdx with
      | None => pushSplice result beforeIdx (length before - beforeIdx) []
      | Some afterElement =>
          if bool_decide (beforeElement = afterElement) then
            diff_loop before after contains result (beforeIdx + 1) (afterIdx + 1)
          else if contains afterElement then
            diff_loop before after contains (pushSplice result beforeIdx 1 [])
                      (beforeIdx + 1) afterIdx
          else
            diff_loop before after contains
                      (pushSplice result beforeIdx 0 [afterElement])
                      beforeIdx (afterIdx + 1)
      end
  end.
Proof.
  funelim (diff_loop before after contains result beforeIdx afterIdx);
    repeat match goal with
           | E : _ !! _ = _ |- _ => rewrite E
           end; reflexivity.
Qed.

(** *** The three behaviours of [pushSplice] *)

Lemma pushSplice_noop result i : pushSplice result i 0 [] = result.
Proof. reflexivity. Qed.

Lemma pushSplice_guard_false d ins :
  ¬ (d = 0 ∧ ins = []) → (d =? 0) && (length ins =? 0) = false.
Proof.
  intros Hne. apply andb_false_iff.
  destruct d as [|d]; [right|left; reflexivity].
  destruct ins; [exfalso; auto | reflexivity].
Qed.

Lemma pushSplice_merge r latest i d ins :
  ¬ (d = 0 ∧ ins = []) → splice_end latest = i →
  pushSplice (r ++ [latest]) i d ins =
  r ++ [mkSplice (start latest) (deleteCount latest + d) (toInsert latest ++ ins)].
Proof.
  intros Hne Hend. unfold pushSplice.
  rewrite (pushSplice_guard_false _ _ Hne), last_snoc.
  unfold splice_end in Hend. rewrite (proj2 (Nat.eqb_eq _ _) Hend).
  rewrite length_app; simpl.
  replace (length r + 1 - 1) with (length r + 0) by lia.
  rewrite insert_app_r. reflexivity.
Qed.

Lemma pushSplice_push result i d ins :
  ¬ (d = 0 ∧ ins = []) →
  (∀ latest, last result = Some latest → splice_end latest ≠ i) →
  pushSplice result i d ins = result ++ [mkSplice i d ins].
Proof.
  intros Hne Hlast. unfold pushSplice.
  rewrite (pushSplice_guard_false _ _ Hne).
  destruct (last result) as [latest|] eqn:E; [|reflexivity].
  specialize (Hlast latest eq_refl). unfold splice_end in Hlast.
  rewrite (proj2 (Nat.eqb_neq _ _) Hlast). reflexivity.
Qed.

(** *** Ordered, separated splices *)

Lemma fits_weaken lo lo' n n' r :
  lo' ≤ lo → n ≤ n' → fits lo n r → fits lo' n' r.
Proof.
  revert lo lo'. induction r as [|s rest IH]; simpl; [done|].
  intros lo lo' Hlo Hn (H1 & H2 & H3). repeat split; [lia..|].
  eapply IH; [reflexivity|assumption|eassumption].
Qed.

Lemma fits_snoc lo n r s :
  fits lo n (r ++ [s]) ↔
  fits lo n r ∧ Forall (λ s', S (splice_end s') ≤ start s) r
  ∧ lo ≤ start s ∧ splice_end s ≤ n.
Proof.
  revert lo. induction r as [|s0 rest IH]; intros lo; simpl.
  - rewrite Forall_nil. tauto.
  - rewrite IH, Forall_cons. unfold splice_end. split.
    + intros (? & ? & ? & ? & ? & ?). repeat split; auto; lia.
    + intros ((? & ? & ?) & (? & ?) & ? & ?). repeat split; auto; lia.
Qed.

Lemma fits_tighten lo n m r :
  fits lo n r → Forall (λ s', splice_end s' ≤ m) r → fits lo m r.
Proof.
  revert lo. induction r as [|s rest IH]; simpl; [done|].
  intros lo (H1 & H2 & H3) Hall. inversion Hall; subst. auto.
Qed.

Lemma fits_no_latest_at lo i r :
  fits lo i r →
  (∀ latest, last r = Some latest → splice_end latest ≠ i) →
  Forall (λ s', S (splice_end s') ≤ i) r.
Proof.
  destruct r as [|s r' _] using rev_ind; [constructor|].
  rewrite fits_snoc, last_snoc. intros (Hr & Hsep & _ & Hend) Hlast.
  specialize (Hlast s eq_refl).
  apply Forall_app; split.
  - eapply Forall_impl; [exact Hsep|]. unfold splice_end in *. simpl. intros; lia.
  - repeat constructor. lia.
Qed.

Lemma fits_consecutive lo n r k s1 s2 :
  fits lo n r → r !! k = Some s1 → r !! S k = Some s2 →
  splice_end s1 < start s2.
Proof.
  revert lo k. induction r as [|s rest IH]; intros lo k; [done|].
  simpl. intros (_ & _ & Hrest) H1 H2.
  destruct k as [|k]; simpl in *.
  - injection H1 as ->. destruct rest as [|s' rest']; [done|].
    injection H2 as ->. simpl in Hrest. lia.
  - eapply IH; eauto.
Qed.

(** *** [splice] acts locally *)

Lemma splice_app s l x :
  splice_end s ≤ length l → splice s (l ++ x) = splice s l ++ x.
Proof.
  unfold splice_end, splice. intros Hle.
  rewrite take_app_le, drop_app_le by lia.
  by rewrite <- !app_assoc.
Qed.

(** Splices that start at [lo] or later leave the first [p ≤ lo]
    elements alone. *)
Lemma apply_reversed_prefix lo n r l p :
  fits lo n r → n ≤ length l → p ≤ lo →
  take p (apply_reversed r l) = take p l.
Proof.
  revert lo p. induction r as [|s rest IH]; intros lo p; [done|].
  simpl. intros (Hlo & Hn & Hrest) Hlen Hp.
  assert (Hpre : take (splice_end s) (apply_reversed rest l)
                 = take (splice_end s) l).
  { eapply IH; [exact Hrest|assumption|lia]. }
  assert (Hlong : splice_end s ≤ length (apply_reversed rest l)).
  { apply (f_equal length) in Hpre. rewrite !length_take in Hpre. lia. }
  fold (apply_reversed rest l). unfold splice at 1.
  unfold splice_end in *.
  rewrite take_app_le by (rewrite length_take; lia).
  rewrite take_take, Nat.min_l by lia.
  transitivity (take p (take (start s + deleteCount s) (apply_reversed rest l))).
  - rewrite take_take, Nat.min_l by lia. reflexivity.
  - rewrite Hpre, take_take, Nat.min_l by lia. reflexivity.
Qed.

(** Splices that fit within [l] do not see what follows [l]. *)
Lemma apply_reversed_frame lo n r l x :
  fits lo n r → n ≤ length l →
  apply_reversed r (l ++ x) = apply_reversed r l ++ x.
Proof.
  revert lo. induction r as [|s rest IH]; intros lo; [done|].
  simpl. intros (Hlo & Hn & Hrest) Hlen.
  fold (apply_reversed rest (l ++ x)). fold (apply_reversed rest l).
  rewrite (IH _ Hrest Hlen). apply splice_app.
  pose proof (apply_reversed_prefix _ _ _ l (splice_end s) Hrest Hlen) as Hpre.
  apply (f_equal length) in Hpre; [|lia].
  rewrite !length_take in Hpre. lia.
Qed.

Lemma apply_reversed_snoc r s l :
  apply_reversed (r ++ [s]) l = apply_reversed r (splice s l).
Proof. unfold apply_reversed. by rewrite foldr_app. Qed.

(** *** The loop invariant *)

Lemma edits_pushSplice before result i f d ins :
  i + d ≤ length before →
  edits before result i f →
  edits before (pushSplice result i d ins) (i + d) (f ++ ins).
Proof.
  intros Hlen [Hfits Happ].
  destruct (decide (d = 0 ∧ ins = [])) as [[-> ->]|Hne].
  { rewrite pushSplice_noop, Nat.add_0_r, app_nil_r. by split. }
  assert (Hlast : (∃ r latest, result = r ++ [latest] ∧ splice_end latest = i)
                  ∨ (∀ latest, last result = Some latest → splice_end latest ≠ i)).
  { destruct result as [|latest r _] using rev_ind.
    - right. intros latest. simpl. discriminate.
    - destruct (decide (splice_end latest = i)) as [Heq|Hneq].
      + left. eauto.
      + right. intros latest'. rewrite last_snoc. by intros [= <-]. }
  destruct Hlast as [(r & latest & -> & Hend)|Hlast].
  - (* the new range touches the latest splice: merged into it *)
    rewrite (pushSplice_merge _ _ _ _ _ Hne Hend).
    apply fits_snoc in Hfits as (Hr & Hsep & _ & _).
    assert (Hst : start latest ≤ length before)
      by (unfold splice_end in Hend; lia).
    assert (Hr' : fits 0 (start latest) r).
    { eapply fits_tighten; [exact Hr|].
      eapply Forall_impl; [exact Hsep|]. simpl. intros; lia. }
    rewrite apply_reversed_snoc in Happ. unfold splice at 1 in Happ.
    fold (splice_end latest) in Happ. rewrite Hend in Happ.
    erewrite apply_reversed_frame in Happ;
      [|exact Hr'|rewrite length_take; lia].
    rewrite app_assoc in Happ.
    apply app_inv_tail in Happ.
    split.
    + apply fits_snoc. unfold splice_end in *. simpl.
      repeat split; [eapply fits_weaken; [| |exact Hr]; lia|exact Hsep|lia..].
    + rewrite apply_reversed_snoc. unfold splice at 1. simpl.
      erewrite apply_reversed_frame; [|exact Hr'|rewrite length_take; lia].
      unfold splice_end in Hend.
      replace (start latest + (deleteCount latest + d)) with (i + d) by lia.
      rewrite <- Happ. by rewrite <- !app_assoc.
  - (* otherwise a new splice is pushed *)
    rewrite (pushSplice_push _ _ _ _ Hne Hlast).
    pose proof (fits_no_latest_at _ _ _ Hfits Hlast) as Hsep.
    rewrite <- (take_drop i before) in Happ at 1.
    erewrite apply_reversed_frame in Happ;
      [|exact Hfits|rewrite length_take; lia].
    apply app_inv_tail in Happ.
    split.
    + apply fits_snoc. unfold splice_end. simpl.
      repeat split; [eapply fits_weaken; [| |exact Hfits]; lia|exact Hsep|lia..].
    + rewrite apply_reversed_snoc. unfold splice at 1. simpl.
      erewrite apply_reversed_frame; [|exact Hfits|rewrite length_take; lia].
      rewrite Happ. by rewrite <- !app_assoc.
Qed.

(** From any state that satisfies the invariant the loop ends with
    splices that rebuild [after]. *)
Lemma diff_loop_edits before after contains n :
  ∀ result i j,
    (length before - i) + (length after - j) ≤ n →
    i ≤ length before → j ≤ length after →
    edits before result i (take j after) →
    edits before (diff_loop before after contains result i j)
          (length before) after.
Proof.
  induction n as [|n IH]; intros result i j Hn Hi Hj Hinv;
    rewrite diff_loop_step.
  - (* both sequences are exhausted *)
    assert (i = length before) as -> by lia.
    assert (j = length after) as -> by lia.
    rewrite lookup_ge_None_2 by lia.
    rewrite drop_all, pushSplice_noop. by rewrite firstn_all in Hinv.
  - destruct (before !! i) as [b|] eqn:Eb.
    2:{ apply lookup_ge_None_1 in Eb. assert (i = length before) as -> by lia.
        assert (Hpush := λ Hle, edits_pushSplice _ _ _ _ 0 (drop j after) Hle Hinv).
        specialize (Hpush ltac:(lia)).
        by rewrite Nat.add_0_r, take_drop in Hpush. }
    pose proof (lookup_lt_Some _ _ _ Eb) as Hib.
    destruct (after !! j) as [a|] eqn:Ea.
    2:{ apply lookup_ge_None_1 in Ea. assert (j = length after) as -> by lia.
        assert (Hpush := λ Hle, edits_pushSplice _ _ _ _ (length before - i) []
                                        Hle Hinv).
        specialize (Hpush ltac:(lia)).
        rewrite firstn_all, app_nil_r in Hpush.
        by replace (i + (length before - i)) with (length before) in Hpush by lia. }
    pose proof (lookup_lt_Some _ _ _ Ea) as Hja.
    case_bool_decide as Heq; [|destruct (contains a)].
    + (* equal: both indices advance *)
      subst a. apply IH; [lia..|].
      destruct Hinv as [Hfits Happ]. split.
      * eapply fits_weaken; [| |exact Hfits]; lia.
      * rewrite Happ, !Nat.add_1_r, (take_S_r _ _ _ Ea), (drop_S _ _ _ Eb).
        by rewrite <- app_assoc.
    + (* the element of [before] is deleted *)
      apply IH; [lia..|].
      assert (Hpush := λ Hle, edits_pushSplice _ _ _ _ 1 [] Hle Hinv).
      specialize (Hpush ltac:(lia)).
      by rewrite app_nil_r in Hpush.
    + (* the element of [after] is inserted *)
      apply IH; [lia..|].
      assert (Hpush := λ Hle, edits_pushSplice _ _ _ _ 0 [a] Hle Hinv).
      specialize (Hpush ltac:(lia)).
      rewrite Nat.add_0_r in Hpush.
      by rewrite Nat.add_1_r, (take_S_r _ _ _ Ea).
Qed.

Lemma diff_edits before after contains :
  edits before (diff before after contains) (length before) after.
Proof.
  unfold diff. eapply diff_loop_edits; [reflexivity|lia..|].
  split; [exact I|]. by rewrite drop_0.
Qed.

(** On equal sequences the loop only ever takes the "equal" branch. *)
Lemma diff_loop_same l contains n :
  ∀ result i, length l - i ≤ n →
    diff_loop l l contains result i i = result.
Proof.
  induction n as [|n IH]; intros result i Hn; rewrite diff_loop_step.
  - rewrite lookup_ge_None_2 by lia. rewrite drop_ge by lia.
    apply pushSplice_noop.
  - destruct (l !! i) as [x|] eqn:E.
    + rewrite bool_decide_eq_true_2 by reflexivity.
      apply lookup_lt_Some in E. apply IH. lia.
    + apply lookup_ge_None_1 in E. rewrite drop_ge by lia.
      apply pushSplice_noop.
Qed.

End facts.
End DiffFacts.

(** ** What the specification says of the diff engine *)

Section diff_claims.
Import Diff DiffFacts.
Context {T : Type} `{EqDecision T}.

(** C1, as amended. The starts of the splices of [diff before after contains]
    are positions in [before]: applying the splices last entry first (as
    the consumers of the splices do) turns [before] into [after], whatever
    [contains] answers. *)
Theorem diff_apply_reversed (before after : list T) (contains : T → bool) :
  apply_reversed (diff before after contains) before = after.
Proof.
  destruct (diff_edits before after contains) as [_ Happ].
  by rewrite Happ, drop_all, app_nil_r.
Qed.

(** C6. No two consecutive splices of a result of [diff] touch: the one
    never ends where the next starts. *)
Theorem diff_no_adjacent_splices (before after : list T) (contains : T → bool)
    (i : nat) (s1 s2 : ISplice T) :
  diff before after contains !! i = Some s1 →
  diff before after contains !! (i + 1) = Some s2 →
  start s1 + deleteCount s1 ≠ start s2.
Proof.
  intros H1 H2. rewrite Nat.add_1_r in H2.
  destruct (diff_edits before after contains) as [Hfits _].
  pose proof (fits_consecutive _ _ _ _ _ _ Hfits H1 H2) as Hlt.
  unfold splice_end in Hlt. lia.
Qed.

(** C7, as amended. Against an empty [before] a non-empty sequence is
    inserted by one splice at 0; against an empty [after] a non-empty
    sequence is deleted by one splice at 0. *)
Theorem diff_against_empty (l : list T) (contains : T → bool) :
  l ≠ [] →
  diff [] l contains = [mkSplice 0 0 l]
  ∧ diff l [] contains = [mkSplice 0 (length l) []].
Proof.
  intros Hne. unfold diff.
  destruct l as [|x l']; [done|].
  split; rewrite diff_loop_step; reflexivity.
Qed.

(** C8. Equal sequences give no splice at all, the empty ones included. *)
Theorem diff_same (l : list T) (contains : T → bool) :
  diff l l contains = [] ∧ diff [] [] contains = [].
Proof.
  split; unfold diff; eapply diff_loop_same; reflexivity.
Qed.

End diff_claims.

(** C1, as stated, fails: carried out one after the other on the array as
    it changes, first entry first, the splices of [diff [1;2] [9;1;8;2]]
    give [9;8;1;2]. *)
Lemma diff_apply_in_order_counterexample :
  let before := [1; 2] in
  let after := [9; 1; 8; 2] in
  let contains := λ x : nat, bool_decide (x ∈ before) in
  (∀ x, contains x = true ↔ x ∈ before)
  ∧ Diff.diff before after contains
    = [Diff.mkSplice 0 0 [9]; Diff.mkSplice 1 0 [8]]
  ∧ Diff.apply_in_order (Diff.diff before after contains) before = [9; 8; 1; 2]
  ∧ Diff.apply_in_order (Diff.diff before after contains) before ≠ after.
Proof.
  repeat split; try reflexivity.
  - intros Hx. by apply bool_decide_eq_true in Hx.
  - intros Hx. by apply bool_decide_eq_true.
  - discriminate.
Qed.

(** C6 at [diff [1;2] [9;1;8;2]], whose two splices start at 0 and at 1. *)
Lemma diff_no_adjacent_splices_witness :
  Diff.diff [1; 2] [9; 1; 8; 2] (λ x : nat, bool_decide (x ∈ [1; 2])) !! 0
  = Some (Diff.mkSplice 0 0 [9])
  ∧ Diff.diff [1; 2] [9; 1; 8; 2] (λ x : nat, bool_decide (x ∈ [1; 2])) !! (0 + 1)
    = Some (Diff.mkSplice 1 0 [8])
  ∧ Diff.start (Diff.mkSplice 0 0 [9]) + Diff.deleteCount (Diff.mkSplice 0 0 [9])
    ≠ Diff.start (Diff.mkSplice 1 0 [8]).
Proof.
  split; [reflexivity|]. split; [reflexivity|].
  apply (diff_no_adjacent_splices [1; 2] [9; 1; 8; 2]
           (λ x : nat, bool_decide (x ∈ [1; 2])) 0); reflexivity.
Defined.

(** C7, as stated, fails on the empty sequence: [diff [] []] has no splice. *)
Lemma diff_against_empty_counterexample :
  Diff.diff (T:=nat) [] [] (λ _, true) = []
  ∧ Diff.diff (T:=nat) [] [] (λ _, true) ≠ [Diff.mkSplice 0 0 []].
Proof. split; [reflexivity|discriminate]. Qed.

(** C7, as amended, at the one-element sequence [[7]]. *)
Lemma diff_against_empty_witness :
  [7] ≠ ([] : list nat)
  ∧ Diff.diff [] [7] (λ _, true) = [Diff.mkSplice 0 0 [7]]
  ∧ Diff.diff [7] [] (λ _, true) = [Diff.mkSplice 0 (length [7]) []].
Proof.
  split; [discriminate|].
  apply (diff_against_empty [7] (λ _, true)). discriminate.
Defined.

(** ** Properties of the document model *)

Module NotebookFacts.
Import Diff Notebook.

(** *** Running the small pieces *)

Lemma forEach_dispose_one (ds : list IDisposable) (w : World) :
  forEach dispose_one ds w
  = (Ok tt, mkWorld (this w)
                    (trace w ++ map (λ d, match d with
                                          | OutputsListener h => Unsubscribed h
                                          end) ds)).
Proof.
  revert w. induction ds as [|[h] ds IH]; intros [doc t]; simpl.
  - by rewrite app_nil_r.
  - unfold mbind, M_bind. simpl. rewrite IH. simpl. by rewrite <- app_assoc.
Qed.

Lemma store_clear_run (store : DisposableStore) (w : World) :
  store_clear store w
  = (Ok (mkStore [] (_isDisposed store)),
     mkWorld (this w) (trace w ++ disposal_events store)).
Proof.
  unfold store_clear, mbind, M_bind. by rewrite forEach_dispose_one.
Qed.

Lemma proxy_calls_disposal_events (store : DisposableStore) :
  proxy_calls (disposal_events store) = [].
Proof.
  unfold proxy_calls, disposal_events.
  induction (_toDispose store) as [|[h] ds IH]; [done|exact IH].
Qed.

(** *** Removing the middle one of three cells *)

Lemma diff_remove_middle {T : Type} `{EqDecision T} (x1 x2 x3 : T)
    (contains : T → bool) :
  x2 ≠ x3 → contains x3 = true →
  diff [x1; x2; x3] [x1; x3] contains = [mkSplice 1 1 []].
Proof.
  intros Hne Hin. unfold diff.
  rewrite DiffFacts.diff_loop_step. cbn [lookup list_lookup].
  rewrite bool_decide_eq_true_2 by reflexivity.
  rewrite DiffFacts.diff_loop_step. cbn [lookup list_lookup Nat.add].
  rewrite bool_decide_eq_false_2 by exact Hne. rewrite Hin.
  rewrite DiffFacts.diff_loop_step. cbn [lookup list_lookup Nat.add].
  rewrite bool_decide_eq_true_2 by reflexivity.
  rewrite DiffFacts.diff_loop_step. reflexivity.
Qed.

(** *** The three loops of [getMimeTypeOrder] *)

Lemma scanOrder_first_match (patterns : list ParsedPattern) (m : string) (order : nat) :
  scanOrder patterns m order
  = match first_match patterns m with
    | Some i => Return (order + i)
    | None => Fallthrough (order + length patterns)
    end.
Proof.
  revert order. induction patterns as [|p rest IH]; intros order; simpl.
  - by rewrite Nat.add_0_r.
  - destruct (p m); [by rewrite Nat.add_0_r|].
    rewrite IH. destruct (first_match rest m); simpl; f_equal; lia.
Qed.

Lemma getMimeTypeOrder_defined (doc : ExtHostNotebookDocument)
    (core : ExtHostOutputDisplayOrder) (m : string) :
  outputDisplayOrder (renderingHandler doc) = Some core →
  getMimeTypeOrder doc m
  = rank_spec (default [] (userOrder core)) (_parsedDisplayOrder doc)
              (defaultOrder core) m.
Proof.
  intros Hcore. unfold getMimeTypeOrder, rank_spec. rewrite Hcore.
  destruct (userOrder core) as [user|]; simpl.
  - rewrite scanOrder_first_match.
    destruct (first_match user m); [done|].
    rewrite scanOrder_first_match.
    destruct (first_match (_parsedDisplayOrder doc) m); [done|].
    rewrite scanOrder_first_match.
    by destruct (first_match (defaultOrder core) m).
  - rewrite scanOrder_first_match.
    destruct (first_match (_parsedDisplayOrder doc) m); [done|].
    rewrite scanOrder_first_match.
    by destruct (first_match (defaultOrder core) m).
Qed.

(** *** Sorting by rank *)

Section sorting.
Context {A : Type} (key : A → nat).

Local Abbreviation by_key := (λ a b : A, (Z.of_nat (key a) - Z.of_nat (key b))%Z).

Lemma sort_insert_elem_of (x y : A) (l : list A) :
  y ∈ sort_insert by_key x l ↔ y = x ∨ y ∈ l.
Proof.
  induction l as [|z l IH]; simpl.
  - rewrite list_elem_of_singleton, elem_of_nil. tauto.
  - destruct (_ <=? 0)%Z; [by rewrite !elem_of_cons|].
    rewrite !elem_of_cons, IH. tauto.
Qed.

Lemma sort_insert_sorted (x : A) (l : list A) :
  StronglySorted (λ a b, key a ≤ key b) l →
  StronglySorted (λ a b, key a ≤ key b) (sort_insert by_key x l).
Proof.
  induction 1 as [|z l Hl IH Hz]; simpl.
  - repeat constructor.
  - destruct (_ <=? 0)%Z eqn:E.
    + apply Z.leb_le in E. constructor; [by constructor|].
      constructor; [lia|].
      eapply Forall_impl; [exact Hz|]. simpl. intros; lia.
    + apply Z.leb_gt in E. constructor; [exact IH|].
      apply Forall_forall. intros y Hy.
      apply sort_insert_elem_of in Hy as [->|Hy]; [lia|].
      by eapply Forall_forall in Hz.
Qed.

Lemma sort_sorted (l : list A) :
  StronglySorted (λ a b, key a ≤ key b) (sort by_key l).
Proof.
  induction l as [|x l IH]; simpl; [constructor|].
  by apply sort_insert_sorted.
Qed.

Lemma sort_elem_of (y : A) (l : list A) : y ∈ sort by_key l ↔ y ∈ l.
Proof.
  induction l as [|x l IH]; simpl; [done|].
  rewrite sort_insert_elem_of, elem_of_cons, IH. tauto.
Qed.

Lemma sort_insert_Permutation (x : A) (l : list A) :
  sort_insert by_key x l ≡ₚ x :: l.
Proof.
  induction l as [|y l IH]; simpl; [done|].
  destruct (_ <=? 0)%Z; [done|]. rewrite IH. apply Permutation_swap.
Qed.

Lemma sort_Permutation (l : list A) : sort by_key l ≡ₚ l.
Proof.
  induction l as [|x l IH]; simpl; [done|].
  by rewrite sort_insert_Permutation, IH.
Qed.

End sorting.


(** *** Running [transformMimeTypes] *)

Section transform.
Variable supported : string → bool.

Lemma render_calls_app (cell : ExtHostCell) (l1 l2 : list IOrderedMimeType) :
  render_calls cell (l1 ++ l2) = render_calls cell l1 ++ render_calls cell l2.
Proof. apply omap_app. Qed.

Lemma render_calls_unresolved (cell : ExtHostCell) (l : list IOrderedMimeType) :
  Forall (λ c, isResolved c = false) l → render_calls cell l = [].
Proof.
  induction 1 as [|c l Hc _ IH]; [done|].
  unfold render_calls in *. simpl. by rewrite Hc.
Qed.

Lemma transformMimeType_run (cell : ExtHostCell) (out : CellDisplayOutput)
    (m : string) (w : World) :
  transformMimeType supported cell out m w
  = (Ok (candidatesFor supported (this w) cell out m),
     mkWorld (this w)
             (trace w
              ++ render_calls cell (candidatesFor supported (this w) cell out m))).
Proof.
  destruct w as [doc t].
  unfold transformMimeType, candidatesFor, mbind, M_bind, get_this. simpl.
  destruct (findBestMatchedRenderer (renderingHandler doc) m) as [|first others].
  - simpl. by rewrite app_nil_r.
  - simpl. do 2 f_equal. f_equal.
    unfold render_calls. simpl. f_equal. symmetry.
    apply (render_calls_unresolved cell). apply Forall_app. split.
    + apply Forall_forall. intros c Hc. apply list_elem_of_fmap in Hc as (h & -> & _).
      reflexivity.
    + destruct (supported m); repeat constructor.
Qed.

Lemma transformEach_run (cell : ExtHostCell) (out : CellDisplayOutput)
    (ms : list string) (pushed : list IOrderedMimeType) (w : World) :
  transformEach supported cell out ms pushed w
  = (Ok (pushed ++ concat (map (candidatesFor supported (this w) cell out) ms)),
     mkWorld (this w)
             (trace w
              ++ render_calls cell
                   (concat (map (candidatesFor supported (this w) cell out) ms)))).
Proof.
  revert pushed w. induction ms as [|m ms IH]; intros pushed [doc t]; simpl.
  - by rewrite !app_nil_r.
  - unfold mbind, M_bind. rewrite transformMimeType_run. simpl.
    rewrite IH. simpl. by rewrite render_calls_app, <- !app_assoc.
Qed.

Lemma transformMimeTypes_run (cell : ExtHostCell) (out : CellDisplayOutput)
    (w : World) :
  let sorted :=
    sort (λ a b, (Z.of_nat (getMimeTypeOrder (this w) a)
                  - Z.of_nat (getMimeTypeOrder (this w) b))%Z) (data out).*1 in
  let candidates := concat (map (candidatesFor supported (this w) cell out) sorted) in
  transformMimeTypes supported cell out w
  = (Ok (mkTransformed (output_type out) (data out) candidates 0),
     mkWorld (this w) (trace w ++ render_calls cell candidates)).
Proof.
  destruct w as [doc t]. simpl.
  unfold transformMimeTypes, mbind, M_bind, get_this. simpl.
  by rewrite transformEach_run.
Qed.

(** *** The candidates of one mimetype *)

Lemma candidatesFor_mimeType doc cell out (m : string) (c : IOrderedMimeType) :
  c ∈ candidatesFor supported doc cell out m → mimeType c = m.
Proof.
  unfold candidatesFor.
  destruct (findBestMatchedRenderer (renderingHandler doc) m) as [|first others].
  - by intros ->%list_elem_of_singleton.
  - rewrite !elem_of_app, list_elem_of_singleton.
    intros [->|[Hc|Hc]]; [done| |].
    + by apply list_elem_of_fmap in Hc as (h & -> & _).
    + destruct (supported m); [by apply list_elem_of_singleton in Hc as ->|].
      by apply elem_of_nil in Hc.
Qed.

Lemma candidatesFor_resolved doc cell out (m : string) (c : IOrderedMimeType) :
  c ∈ candidatesFor supported doc cell out m → isResolved c = true →
  ∃ first others,
    findBestMatchedRenderer (renderingHandler doc) m = first :: others
    ∧ c = mkOrderedMimeType m true (Some (renderer_handle first))
                            (Some (renderer first cell out m)).
Proof.
  unfold candidatesFor.
  destruct (findBestMatchedRenderer (renderingHandler doc) m) as [|first others].
  - by intros ->%list_elem_of_singleton.
  - rewrite !elem_of_app, list_elem_of_singleton.
    intros [->|[Hc|Hc]] Hres; [by eauto| |].
    + by apply list_elem_of_fmap in Hc as (h & -> & _).
    + destruct (supported m); [by apply list_elem_of_singleton in Hc as ->|].
      by apply elem_of_nil in Hc.
Qed.

Lemma candidatesFor_unresolved doc cell out (m : string) (c : IOrderedMimeType) :
  c ∈ candidatesFor supported doc cell out m → isResolved c = false →
  output c = None.
Proof.
  unfold candidatesFor.
  destruct (findBestMatchedRenderer (renderingHandler doc) m) as [|first others].
  - by intros ->%list_elem_of_singleton.
  - rewrite !elem_of_app, list_elem_of_singleton.
    intros [->|[Hc|Hc]] Hres; [done| |].
    + by apply list_elem_of_fmap in Hc as (h & -> & _).
    + destruct (supported m); [by apply list_elem_of_singleton in Hc as ->|].
      by apply elem_of_nil in Hc.
Qed.


Lemma elem_of_candidates doc cell out (ms : list string) (c : IOrderedMimeType) :
  c ∈ concat (map (candidatesFor supported doc cell out) ms) →
  ∃ m, m ∈ ms ∧ c ∈ candidatesFor supported doc cell out m.
Proof.
  induction ms as [|m ms IH]; simpl.
  - by intros ?%elem_of_nil.
  - rewrite elem_of_app. intros [Hc|Hc].
    + exists m. split; [left|done].
    + destruct (IH Hc) as (m' & ? & ?). exists m'. split; [by right|done].
Qed.

(** The one call that stands behind the candidates of a mimetype. *)
Lemma render_calls_candidatesFor doc cell out (m : string) :
  render_calls cell (candidatesFor supported doc cell out m)
  = match findBestMatchedRenderer (renderingHandler doc) m with
    | first :: _ => [Render (renderer_handle first) (handle cell) m]
    | [] => []
    end.
Proof.
  unfold candidatesFor.
  destruct (findBestMatchedRenderer (renderingHandler doc) m) as [|first others];
    [done|].
  rewrite render_calls_app. rewrite (render_calls_unresolved cell (_ ++ _)); [done|].
  apply Forall_app. split.
  - apply Forall_forall. intros c Hc.
    by apply list_elem_of_fmap in Hc as (h & -> & _).
  - destruct (supported m); repeat constructor.
Qed.

Lemma candidatesFor_resolved_elem doc cell out (m : string) first others :
  findBestMatchedRenderer (renderingHandler doc) m = first :: others →
  mkOrderedMimeType m true (Some (renderer_handle first))
                    (Some (renderer first cell out m))
  ∈ candidatesFor supported doc cell out m.
Proof. intros Hfind. unfold candidatesFor. rewrite Hfind. by left. Qed.

Lemma elem_of_candidates_2 doc cell out (ms : list string) (m : string)
    (c : IOrderedMimeType) :
  m ∈ ms → c ∈ candidatesFor supported doc cell out m →
  c ∈ concat (map (candidatesFor supported doc cell out) ms).
Proof.
  intros Hm Hc. induction ms as [|m' ms IH]; [by apply elem_of_nil in Hm|].
  cbn [map concat]. apply elem_of_app.
  apply elem_of_cons in Hm as [->|Hm]; [by left|right; by apply IH].
Qed.

(** The calls made for one mimetype: one call of its first renderer for
    each time the mimetype stands in the list. *)
Lemma renders_of_candidates doc cell out (ms : list string) (m : string) :
  renders_of m
    (render_calls cell (concat (map (candidatesFor supported doc cell out) ms)))
  = match findBestMatchedRenderer (renderingHandler doc) m with
    | first :: _ =>
        replicate (length (filter (λ key, key = m) ms))
                  (Render (renderer_handle first) (handle cell) m)
    | [] => []
    end.
Proof.
  unfold renders_of. induction ms as [|m' ms IH].
  { simpl. by destruct (findBestMatchedRenderer _ m). }
  cbn [map concat]. rewrite render_calls_app, filter_app, IH.
  rewrite render_calls_candidatesFor.
  destruct (decide (m' = m)) as [->|Hne].
  - rewrite filter_cons_True by done.
    destruct (findBestMatchedRenderer _ m) as [|first others]; [done|].
    rewrite filter_cons_True by (simpl; by rewrite bool_decide_eq_true_2).
    by rewrite filter_nil.
  - rewrite (filter_cons_False _ m') by done.
    assert (Hnone : filter (λ e, is_render_of m e = true)
              match findBestMatchedRenderer (renderingHandler doc) m' with
              | first :: _ => [Render (renderer_handle first) (handle cell) m']
              | [] => []
              end = []).
    { destruct (findBestMatchedRenderer _ m') as [|first' others']; [done|].
      rewrite filter_cons_False; [done|].
      simpl. by rewrite bool_decide_eq_false_2. }
    by rewrite Hnone.
Qed.



End transform.

End NotebookFacts.

(** ** What the specification says of the document model *)

Section notebook_claims.
Import Diff Notebook NotebookFacts.

(** C4, as amended. Once the core display order has been received, the
    rank of a mimetype is the index of the first pattern that matches it,
    scanning the user order (none when absent), then the document order,
    then the default order, each list's indices offset by the lengths of
    the lists before it, and the total number of patterns when none
    matches; with user order [image/*], no document order and default order
    [text/plain, text/html] the ranks of image/png, text/plain, text/html
    and application/json are 0, 1, 2 and 3. Until the core display order has
    been received, the rank of every mimetype is 0 and the document order is
    not looked at. *)
Theorem getMimeTypeOrder_rank (doc : ExtHostNotebookDocument) (m : string) :
  (∀ core, outputDisplayOrder (renderingHandler doc) = Some core →
     getMimeTypeOrder doc m
     = rank_spec (default [] (userOrder core)) (_parsedDisplayOrder doc)
                 (defaultOrder core) m)
  ∧ (outputDisplayOrder (renderingHandler doc) = None →
     getMimeTypeOrder doc m = 0)
  ∧ (∀ core,
       outputDisplayOrder (renderingHandler doc) = Some core →
       userOrder core = Some [Glob.parse "image/*"] →
       _parsedDisplayOrder doc = [] →
       defaultOrder core = [Glob.parse "text/plain"; Glob.parse "text/html"] →
       getMimeTypeOrder doc "image/png" = 0
       ∧ getMimeTypeOrder doc "text/plain" = 1
       ∧ getMimeTypeOrder doc "text/html" = 2
       ∧ getMimeTypeOrder doc "application/json" = 3).
Proof.
  split; [|split].
  - intros core Hcore. by apply getMimeTypeOrder_defined.
  - intros Hnone. unfold getMimeTypeOrder. by rewrite Hnone.
  - intros core Hcore Huser Hdoc Hdef.
    rewrite !(getMimeTypeOrder_defined _ _ _ Hcore), Huser, Hdoc, Hdef.
    repeat split; reflexivity.
Qed.

(** C10. Reading [languages] returns the empty list and leaves the stored
    list empty, whatever was assigned before; the setter passes the
    assigned list on to the remote peer, and a read that follows it still
    returns the empty list. *)
Theorem get_languages_empty (w : World) (newLanguages : list string) :
  get_languages w = (Ok [], mkWorld (with_languages [] (this w)) (trace w))
  ∧ _languages (with_languages [] (this w)) = []
  ∧ set_languages newLanguages w
    = (Ok tt,
       mkWorld (with_languages newLanguages (this w))
               (trace w ++ [Proxy (updateNotebookLanguages
                                     (viewType (this w)) (uri (this w))
                                     newLanguages)]))
  ∧ (set_languages newLanguages ;; get_languages) w
    = (Ok [],
       mkWorld (with_languages [] (this w))
               (trace w ++ [Proxy (updateNotebookLanguages
                                     (viewType (this w)) (uri (this w))
                                     newLanguages)])).
Proof. repeat split. Qed.

(** At a negative index [deleteCell] passes its range check, reads
    [undefined] from the cell list and throws. *)
Lemma deleteCell_negative (w : World) (index : Z) :
  (index < 0)%Z → deleteCell index w = (Throw TypeError, w).
Proof.
  intros Hneg. unfold deleteCell, mbind, M_bind, get_this. simpl.
  rewrite (proj2 (Z.leb_gt _ _)) by lia.
  unfold array_get. rewrite (proj2 (Z.ltb_lt _ _)) by lia. reflexivity.
Qed.

(** C9 at index -1, on any document: [deleteCell] throws a [TypeError]
    (nothing has been changed by then) instead of returning [false]. *)
Theorem deleteCell_negative_index_throws (w : World) :
  deleteCell (-1) w = (Throw TypeError, w).
Proof. apply deleteCell_negative. lia. Qed.

(** The part of C9 that holds: at an index at or past the end of the cell
    list, [deleteCell] returns [false] and changes nothing. *)
Lemma deleteCell_past_the_end (w : World) (index : Z) :
  (Z.of_nat (length (_cells (this w))) ≤ index)%Z →
  deleteCell index w = (Ok false, w).
Proof.
  intros Hge. unfold deleteCell, mbind, M_bind, get_this. simpl.
  by rewrite (proj2 (Z.leb_le _ _)) by lia.
Qed.

(** C3. A document holds the cells [c1; c2; c3] with handles 1, 2, 3 and a
    store for each of these handles and no other. Assigning [c1; c3] to
    [cells] leaves stores for exactly the handles 1 and 3 (the two stores
    untouched), clears the store of handle 2 on the way, and ends with one
    call on the remote peer: [spliceNotebookCells] with the single splice
    [(1, 1, [])] and no renderer. *)
Theorem set_cells_remove_middle (supported : string → bool) (w : World)
    (c1 c2 c3 : ExtHostCell) :
  handle c1 = 1%Z → handle c2 = 2%Z → handle c3 = 3%Z →
  _cells (this w) = [c1; c2; c3] →
  dom (_cellDisposableMapping (this w)) = {[1%Z; 2%Z; 3%Z]} →
  ∃ (store2 : DisposableStore) (w' : World),
    _cellDisposableMapping (this w) !! 2%Z = Some store2
    ∧ set_cells supported [c1; c3] w = (Ok tt, w')
    ∧ _cells (this w') = [c1; c3]
    ∧ dom (_cellDisposableMapping (this w')) = {[1%Z; 3%Z]}
    ∧ _cellDisposableMapping (this w') = delete 2%Z (_cellDisposableMapping (this w))
    ∧ trace w'
      = trace w ++ disposal_events store2
        ++ [Proxy (spliceNotebookCells (viewType (this w)) (uri (this w))
                                       [(1, 1, [])] [])]
    ∧ proxy_calls (trace w')
      = proxy_calls (trace w)
        ++ [spliceNotebookCells (viewType (this w)) (uri (this w)) [(1, 1, [])] []].
Proof.
  intros H1 H2 H3 Hcells Hdom.
  destruct w as [[cells mapping langs order vt u handler] t]. simpl in *. subst cells.
  assert (Hs2 : is_Some (mapping !! 2%Z))
    by (apply elem_of_dom; rewrite Hdom; set_solver).
  assert (Hs3 : is_Some (mapping !! handle c3))
    by (apply elem_of_dom; rewrite Hdom, H3; set_solver).
  destruct Hs2 as [store2 Hs2].
  exists store2. eexists. split; [exact Hs2|].
  split.
  { unfold set_cells, mbind, M_bind, get_this. cbn [this _cells _cellDisposableMapping].
    rewrite diff_remove_middle;
      [|intros ->; lia|by apply bool_decide_eq_true_2].
    cbn [forEach start deleteCount toInsert seq].
    unfold mbind, M_bind, unwireCellAt, get_this, mbind, M_bind.
    cbn [this _cells _cellDisposableMapping lookup list_lookup].
    rewrite H2, Hs2. rewrite store_clear_run. reflexivity. }
  simpl. split; [reflexivity|]. split.
  { rewrite dom_delete_L, Hdom. set_solver. }
  split; [reflexivity|]. split; [by rewrite <- app_assoc|].
  unfold proxy_calls. rewrite !omap_app.
  fold (proxy_calls (disposal_events store2)).
  by rewrite proxy_calls_disposal_events, app_nil_r.
Qed.

(** C2, as amended. With renderers whose callbacks return,
    [transformMimeTypes] returns, and the [render] calls it makes are
    exactly those of the resolved candidates of its result, one call
    each, in the order of the candidates: a candidate is resolved when
    it stands for the first renderer that matches its mimetype, and its
    content is what that renderer returned; an unresolved candidate has no
    content and no call is made for it. Every mimetype of the output that
    some renderer matches has such a resolved candidate, and the calls
    made for it are calls of its first matching renderer, one for each
    time the mimetype is a key of the data (once, the keys of an object
    being different); for a mimetype that no renderer matches, and for one
    that the output does not have, no call is made. The document is left
    as it was. *)
Theorem transformMimeTypes_render_calls (supported : string → bool)
    (cell : ExtHostCell) (out : CellDisplayOutput) (w : World) :
  ∃ ret : ITransformedDisplayOutputDto,
    transformMimeTypes supported cell out w
    = (Ok ret,
       mkWorld (this w) (trace w ++ render_calls cell (orderedMimeTypes ret)))
    ∧ (∀ c, c ∈ orderedMimeTypes ret → isResolved c = true →
         ∃ first others,
           findBestMatchedRenderer (renderingHandler (this w)) (mimeType c)
           = first :: others
           ∧ rendererId c = Some (renderer_handle first)
           ∧ output c = Some (renderer first cell out (mimeType c)))
    ∧ (∀ c, c ∈ orderedMimeTypes ret → isResolved c = false → output c = None)
    ∧ (∀ m first others,
         m ∈ (data out).*1 →
         findBestMatchedRenderer (renderingHandler (this w)) m = first :: others →
         mkOrderedMimeType m true (Some (renderer_handle first))
                           (Some (renderer first cell out m))
         ∈ orderedMimeTypes ret
         ∧ renders_of m (render_calls cell (orderedMimeTypes ret))
           = replicate (length (filter (λ key, key = m) (data out).*1))
                       (Render (renderer_handle first) (handle cell) m))
    ∧ (∀ m,
         findBestMatchedRenderer (renderingHandler (this w)) m = []
         ∨ m ∉ (data out).*1 →
         renders_of m (render_calls cell (orderedMimeTypes ret)) = []).
Proof.
  pose proof (transformMimeTypes_run supported cell out w) as Hrun.
  cbv zeta in Hrun. eexists. split; [exact Hrun|]. cbn [orderedMimeTypes].
  pose proof (sort_Permutation (getMimeTypeOrder (this w)) (data out).*1) as Hperm.
  split; [|split; [|split]].
  - intros c (m & _ & Hc)%elem_of_candidates Hres.
    destruct (candidatesFor_resolved _ _ _ _ _ _ Hc Hres) as (first & others & Hf & ->).
    simpl. eauto.
  - intros c (m & _ & Hc)%elem_of_candidates Hres.
    by eapply candidatesFor_unresolved.
  - intros m first others Hm Hfind. split.
    + apply (elem_of_candidates_2 _ _ _ _ _ m).
      * by rewrite Hperm.
      * by apply candidatesFor_resolved_elem with others.
    + rewrite renders_of_candidates, Hfind. by rewrite Hperm.
  - intros m Hm. rewrite renders_of_candidates.
    destruct (findBestMatchedRenderer _ m) as [|first others] eqn:Hfind; [done|].
    destruct Hm as [Hm|Hm]; [done|].
    rewrite Hperm.
    destruct (filter (λ key, key = m) (data out).*1) as [|key rest] eqn:Hkeys;
      [done|].
    assert (Hkey : key ∈ filter (λ key, key = m) (data out).*1)
      by (rewrite Hkeys; by left).
    apply list_elem_of_filter in Hkey as [-> Hkey]. done.
Qed.


End notebook_claims.

(** C2, as stated, fails: with a renderer for text/plain and another for
    image/png, [transformMimeTypes] calls both, the second one for the
    candidate at index 1, while the picked candidate is the one at index 0. *)
Lemma transformMimeTypes_render_calls_counterexample :
  Notebook.transformMimeTypes Scenario.noCoreSupport Scenario.aCell
    Scenario.twoMimeTypes (Notebook.mkWorld Scenario.twoRenderers [])
  = (Notebook.Ok
       (Notebook.mkTransformed Notebook.display_data
          [("text/plain", "x"); ("image/png", "y")]
          [Notebook.mkOrderedMimeType "text/plain" true (Some 10%Z) (Some "<pre>x</pre>");
           Notebook.mkOrderedMimeType "image/png" true (Some 11%Z) (Some "<img>")]
          0),
     Notebook.mkWorld Scenario.twoRenderers
       [Notebook.Render 10 0 "text/plain"; Notebook.Render 11 0 "image/png"]).
Proof. reflexivity. Qed.

(** C4, as stated, fails before the core display order has been received:
    text/plain is first matched by the pattern at index 1 of the document
    order, and its rank is 0. *)
Lemma getMimeTypeOrder_rank_counterexample :
  Notebook.first_match
    (Notebook._parsedDisplayOrder Scenario.documentOrderOnly) "text/plain" = Some 1
  ∧ Notebook.rank_spec [] (Notebook._parsedDisplayOrder Scenario.documentOrderOnly) []
                       "text/plain" = 1
  ∧ Notebook.getMimeTypeOrder Scenario.documentOrderOnly "text/plain" = 0.
Proof. repeat split. Qed.

(** C4, as amended, on the display orders of the specification's example. *)
Lemma getMimeTypeOrder_rank_witness :
  Notebook.getMimeTypeOrder Scenario.userPrefersImages "image/png" = 0
  ∧ Notebook.getMimeTypeOrder Scenario.userPrefersImages "text/plain" = 1
  ∧ Notebook.getMimeTypeOrder Scenario.userPrefersImages "text/html" = 2
  ∧ Notebook.getMimeTypeOrder Scenario.userPrefersImages "application/json" = 3.
Proof.
  exact (proj2 (proj2 (getMimeTypeOrder_rank Scenario.userPrefersImages "image/png"))
           _ eq_refl eq_refl eq_refl eq_refl).
Defined.


(** C3 on three cells that each have a store with one listener. *)
Lemma set_cells_remove_middle_witness :
  ∃ (store2 : Notebook.DisposableStore) (w' : Notebook.World),
    Notebook._cellDisposableMapping Scenario.threeCells !! 2%Z = Some store2
    ∧ Notebook.set_cells Scenario.noCoreSupport [Scenario.cell1; Scenario.cell3]
        (Notebook.mkWorld Scenario.threeCells [])
      = (Notebook.Ok tt, w')
    ∧ Notebook._cells (Notebook.this w') = [Scenario.cell1; Scenario.cell3]
    ∧ dom (Notebook._cellDisposableMapping (Notebook.this w')) = {[1%Z; 3%Z]}
    ∧ Notebook._cellDisposableMapping (Notebook.this w')
      = delete 2%Z (Notebook._cellDisposableMapping Scenario.threeCells)
    ∧ Notebook.trace w'
      = [] ++ Notebook.disposal_events store2
        ++ [Notebook.Proxy
              (Notebook.spliceNotebookCells "notebook" "file:///a.ipynb"
                 [(1, 1, [])] [])]
    ∧ Notebook.proxy_calls (Notebook.trace w')
      = Notebook.proxy_calls []
        ++ [Notebook.spliceNotebookCells "notebook" "file:///a.ipynb" [(1, 1, [])] []].
Proof.
  apply (set_cells_remove_middle Scenario.noCoreSupport
           (Notebook.mkWorld Scenario.threeCells [])
           Scenario.cell1 Scenario.cell2 Scenario.cell3);
    reflexivity.
Defined.

(* ===================================================================== *)
(** * More properties *)
(* ===================================================================== *)

(** ** More on the diff engine *)

Module DiffMore.
Import Diff DiffFacts DiffViews.

Section more.
Context {T : Type} `{EqDecision T}.
Implicit Types (r result : list (ISplice T)) (s latest : ISplice T).
Implicit Types (l before after ins : list T).

(** A property that every [pushSplice] keeps holds of the result of the
    loop. *)
Lemma diff_loop_closed (P : list (ISplice T) → Prop) before after contains :
  (∀ r i d ins, P r → P (pushSplice r i d ins)) →
  ∀ n result i j,
    (length before - i) + (length after - j) ≤ n →
    P result → P (diff_loop before after contains result i j).
Proof.
  intros Hpush. induction n as [|n IH]; intros result i j Hn HP;
    rewrite diff_loop_step.
  - rewrite lookup_ge_None_2 by lia. by apply Hpush.
  - destruct (before !! i) as [b|] eqn:Eb; [|by apply Hpush].
    apply lookup_lt_Some in Eb.
    destruct (after !! j) as [a|] eqn:Ea; [|by apply Hpush].
    apply lookup_lt_Some in Ea.
    case_bool_decide; [|destruct (contains a)]; apply IH; auto; lia.
Qed.

Lemma pushSplice_cases r i d ins :
  (d = 0 ∧ ins = [] ∧ pushSplice r i d ins = r)
  ∨ (∃ r0 latest,
       r = r0 ++ [latest] ∧ splice_end latest = i ∧ ¬ (d = 0 ∧ ins = [])
       ∧ pushSplice r i d ins
         = r0 ++ [mkSplice (start latest) (deleteCount latest + d)
                           (toInsert latest ++ ins)])
  ∨ (¬ (d = 0 ∧ ins = [])
     ∧ (∀ latest, last r = Some latest → splice_end latest ≠ i)
     ∧ pushSplice r i d ins = r ++ [mkSplice i d ins]).
Proof.
  destruct (decide (d = 0 ∧ ins = [])) as [[-> ->]|Hne]; [by left|].
  destruct r as [|latest r0 _] using rev_ind.
  - right. right. split; [done|]. split; [done|]. by apply pushSplice_push.
  - destruct (decide (splice_end latest = i)) as [Heq|Hneq].
    + right. left. exists r0, latest. by rewrite pushSplice_merge.
    + assert (Hlast : ∀ latest', last (r0 ++ [latest]) = Some latest' →
                                 splice_end latest' ≠ i).
      { intros latest'. rewrite last_snoc. by intros [= <-]. }
      right. right. split; [done|]. split; [done|]. by apply pushSplice_push.
Qed.

Lemma pushSplice_nonempty r i d ins :
  Forall (λ s, deleteCount s ≠ 0 ∨ toInsert s ≠ []) r →
  Forall (λ s, deleteCount s ≠ 0 ∨ toInsert s ≠ []) (pushSplice r i d ins).
Proof.
  intros Hr.
  destruct (pushSplice_cases r i d ins)
    as [(_ & _ & ->)|[(r0 & latest & -> & _ & Hne & ->)|(Hne & _ & ->)]]; [done| |].
  - rewrite Forall_app, Forall_singleton in Hr. destruct Hr as [Hr0 Hl].
    rewrite Forall_app, Forall_singleton. split; [done|]. simpl.
    destruct Hl as [Hl|Hl]; [left; lia|right].
    intros Happ. by apply app_eq_nil in Happ as [? _].
  - rewrite Forall_app, Forall_singleton. split; [done|]. simpl.
    destruct d; [right|left; lia]. destruct ins; [|done]. by destruct Hne.
Qed.

Lemma fits_bounds lo n r :
  fits lo n r → Forall (λ s, lo ≤ start s ∧ splice_end s ≤ n) r.
Proof.
  revert lo. induction r as [|s rest IH]; intros lo; simpl; [constructor|].
  intros (H1 & H2 & H3). constructor; [done|].
  eapply Forall_impl; [by apply IH|]. unfold splice_end. simpl. intros; lia.
Qed.

Lemma fits_pairwise lo n r i j s1 s2 :
  fits lo n r → i < j → r !! i = Some s1 → r !! j = Some s2 →
  splice_end s1 < start s2.
Proof.
  revert lo i j. induction r as [|s rest IH]; intros lo i j; [done|].
  simpl. intros (_ & _ & Hrest) Hij H1 H2.
  destruct j as [|j]; [lia|]. destruct i as [|i]; simpl in *.
  - injection H1 as ->. apply fits_bounds in Hrest.
    eapply Forall_forall in Hrest; [|by eapply list_elem_of_lookup_2]. lia.
  - eapply IH; [exact Hrest| |eassumption..]. lia.
Qed.

(** *** Lengths *)

Lemma apply_reversed_length lo n r l :
  fits lo n r → n ≤ length l →
  length (apply_reversed r l) + deleted_total r = length l + inserted_total r.
Proof.
  revert lo. induction r as [|s rest IH]; intros lo; [by intros|].
  simpl. intros (Hlo & Hn & Hrest) Hlen.
  fold (apply_reversed rest l).
  pose proof (IH _ Hrest Hlen) as Hrec.
  pose proof (apply_reversed_prefix _ _ _ l (splice_end s) Hrest Hlen) as Hpre.
  apply (f_equal length) in Hpre; [|lia]. rewrite !length_take in Hpre.
  unfold deleted_total, inserted_total in *. rewrite !fmap_cons. simpl.
  unfold splice, splice_end in *.
  rewrite !length_app, length_take, length_drop. lia.
Qed.

(** *** First entry first, with moved starts *)

Lemma apply_shifted_reversed n l :
  ∀ r p pre inserted deleted,
    fits p n r → n ≤ length l → p ≤ n →
    length pre + deleted = p + inserted →
    apply_shifted inserted deleted r (pre ++ drop p l)
    = pre ++ drop p (apply_reversed r l).
Proof.
  induction r as [|s rest IH]; intros p pre inserted deleted; [done|].
  simpl. intros (Hlo & Hn & Hrest) Hlen Hp Hpre.
  fold (apply_reversed rest l).
  assert (Hrest' : fits (splice_end s) n rest)
    by (eapply fits_weaken; [| |exact Hrest]; lia).
  pose proof (apply_reversed_prefix _ _ _ l (splice_end s) Hrest' Hlen
                ltac:(reflexivity)) as Hsame.
  assert (Hlong : splice_end s ≤ length (apply_reversed rest l)).
  { apply (f_equal length) in Hsame. rewrite !length_take in Hsame. lia. }
  unfold splice_end in *.
  replace (start s + inserted - deleted) with (length pre + (start s - p)) by lia.
  unfold splice at 1. simpl.
  rewrite take_app_add, <- Nat.add_assoc, drop_app_add, drop_drop.
  replace (p + (start s - p + deleteCount s)) with (start s + deleteCount s) by lia.
  rewrite (app_assoc _ (toInsert s)).
  erewrite IH; [|exact Hrest'|done|lia|].
  2:{ rewrite !length_app, length_take, length_drop. lia. }
  rewrite <- !app_assoc. f_equal.
  unfold splice.
  rewrite drop_app_le by (rewrite length_take; lia).
  rewrite <- (take_take_drop (apply_reversed rest l) (start s) (deleteCount s)) in Hsame.
  rewrite <- (take_take_drop l (start s) (deleteCount s)) in Hsame.
  apply app_inj_1 in Hsame as [Hsame _]; [|rewrite !length_take; lia].
  rewrite Hsame. f_equal.
  rewrite take_drop_commute. f_equal. f_equal. lia.
Qed.

(** *** A common prefix *)

Lemma pushSplice_shift k r i d ins :
  pushSplice (shift_splice k <$> r) (k + i) d ins
  = shift_splice k <$> pushSplice r i d ins.
Proof.
  destruct (pushSplice_cases r i d ins)
    as [(-> & -> & ->)|[(r0 & latest & -> & Hend & Hne & ->)|(Hne & Hlast & ->)]].
  - done.
  - rewrite !fmap_app. simpl.
    rewrite pushSplice_merge; [done|done|].
    unfold splice_end, shift_splice in *. simpl. lia.
  - rewrite fmap_app. simpl.
    rewrite pushSplice_push; [done|done|].
    intros latest' Hl Hend'. rewrite fmap_last in Hl.
    destruct (last r) as [latest|] eqn:El; [|done]. injection Hl as <-.
    apply (Hlast latest eq_refl).
    unfold splice_end, shift_splice in *. simpl in Hend'. lia.
Qed.

Lemma diff_loop_shift p before after contains n :
  ∀ result i j,
    (length before - i) + (length after - j) ≤ n →
    diff_loop (p ++ before) (p ++ after) contains
              (shift_splice (length p) <$> result) (length p + i) (length p + j)
    = shift_splice (length p)
        <$> diff_loop before after contains result i j.
Proof.
  induction n as [|n IH]; intros result i j Hn;
    rewrite (diff_loop_step before), diff_loop_step;
    rewrite !lookup_app_r by lia;
    replace (length p + i - length p) with i by lia;
    replace (length p + j - length p) with j by lia;
    rewrite drop_app_add.
  - rewrite !lookup_ge_None_2 by lia. apply pushSplice_shift.
  - destruct (before !! i) as [b|] eqn:Eb; [|apply pushSplice_shift].
    apply lookup_lt_Some in Eb.
    destruct (after !! j) as [a|] eqn:Ea.
    2:{ rewrite length_app.
        replace (length p + length before - (length p + i))
          with (length before - i) by lia.
        apply pushSplice_shift. }
    apply lookup_lt_Some in Ea.
    case_bool_decide; [|destruct (contains a)].
    + rewrite <- !Nat.add_assoc. apply IH. lia.
    + rewrite pushSplice_shift, <- Nat.add_assoc. apply IH. lia.
    + rewrite pushSplice_shift, <- Nat.add_assoc. apply IH. lia.
Qed.

Lemma diff_loop_skip_prefix p before after contains result n :
  ∀ i, length p - i ≤ n → i ≤ length p →
    diff_loop (p ++ before) (p ++ after) contains result i i
    = diff_loop (p ++ before) (p ++ after) contains result (length p) (length p).
Proof.
  induction n as [|n IH]; intros i Hn Hi.
  - by replace i with (length p) by lia.
  - destruct (decide (i = length p)) as [->|Hne]; [done|].
    rewrite diff_loop_step.
    destruct (lookup_lt_is_Some_2 p i ltac:(lia)) as [x Hx].
    rewrite !(lookup_app_l_Some _ _ _ _ Hx).
    rewrite bool_decide_eq_true_2 by done.
    rewrite Nat.add_1_r. apply IH; lia.
Qed.

Lemma diff_common_prefix p before after contains :
  diff (p ++ before) (p ++ after) contains
  = shift_splice (length p) <$> diff before after contains.
Proof.
  unfold diff.
  rewrite (diff_loop_skip_prefix p before after contains [] (length p) 0)
    by lia.
  pose proof (diff_loop_shift p before after contains _ [] 0 0 (Nat.le_refl _)) as Hs.
  by rewrite !Nat.add_0_r in Hs.
Qed.

Lemma diff_append l tail contains :
  tail ≠ [] → diff l (l ++ tail) contains = [mkSplice (length l) 0 tail].
Proof.
  intros Hne. destruct tail as [|x tail']; [done|].
  pose proof (diff_common_prefix l [] (x :: tail') contains) as Hp.
  rewrite app_nil_r in Hp. rewrite Hp.
  unfold diff. rewrite diff_loop_step. simpl.
  unfold shift_splice. simpl. by rewrite Nat.add_0_r.
Qed.

Lemma diff_truncate l tail contains :
  tail ≠ [] →
  diff (l ++ tail) l contains = [mkSplice (length l) (length tail) []].
Proof.
  intros Hne. destruct tail as [|x tail']; [done|].
  pose proof (diff_common_prefix l (x :: tail') [] contains) as Hp.
  rewrite app_nil_r in Hp. rewrite Hp.
  unfold diff. rewrite diff_loop_step. simpl.
  unfold shift_splice. simpl. by rewrite Nat.add_0_r.
Qed.

End more.
End DiffMore.

(** ** Deleting only, inserting only, and keeping books *)

Module DiffBooks.
Import Diff DiffFacts DiffViews DiffMore.

Section only.
Context {T : Type} `{EqDecision T}.
Implicit Types (r result : list (ISplice T)) (s latest : ISplice T).
Implicit Types (l before after ins : list T).

Lemma pushSplice_nothing_inserted r i d :
  Forall (λ s, toInsert s = []) r →
  Forall (λ s, toInsert s = []) (pushSplice r i d []).
Proof.
  intros Hr.
  destruct (pushSplice_cases r i d [])
    as [(_ & _ & ->)|[(r0 & latest & -> & _ & _ & ->)|(_ & _ & ->)]]; [done| |].
  - rewrite Forall_app, Forall_singleton in Hr. destruct Hr as [Hr0 Hl].
    rewrite Forall_app, Forall_singleton. split; [done|]. simpl.
    by rewrite Hl.
  - rewrite Forall_app, Forall_singleton. by split.
Qed.

Lemma pushSplice_nothing_deleted r i ins :
  Forall (λ s, deleteCount s = 0) r →
  Forall (λ s, deleteCount s = 0) (pushSplice r i 0 ins).
Proof.
  intros Hr.
  destruct (pushSplice_cases r i 0 ins)
    as [(_ & _ & ->)|[(r0 & latest & -> & _ & _ & ->)|(_ & _ & ->)]]; [done| |].
  - rewrite Forall_app, Forall_singleton in Hr. destruct Hr as [Hr0 Hl].
    rewrite Forall_app, Forall_singleton. split; [done|]. simpl. lia.
  - rewrite Forall_app, Forall_singleton. by split.
Qed.

Lemma sublist_tail (x : T) l1 l2 : x :: l1 `sublist_of` l2 → l1 `sublist_of` l2.
Proof. intros Hs. etrans; [|exact Hs]. by constructor. Qed.

Lemma sublist_cons_ne (x y : T) l1 l2 :
  x ≠ y → x :: l1 `sublist_of` y :: l2 → x :: l1 `sublist_of` l2.
Proof. intros Hne Hs. by inversion Hs; subst. Qed.

Lemma sublist_cons_same (x : T) l1 l2 :
  x :: l1 `sublist_of` x :: l2 → l1 `sublist_of` l2.
Proof.
  intros Hs. inversion Hs; subst; [done|]. by eapply sublist_tail.
Qed.

Lemma diff_loop_only_deletes before after contains n :
  (∀ x, x ∈ after → contains x = true) →
  ∀ result i j,
    (length before - i) + (length after - j) ≤ n →
    drop j after `sublist_of` drop i before →
    Forall (λ s, toInsert s = []) result →
    Forall (λ s, toInsert s = [])
           (diff_loop before after contains result i j).
Proof.
  intros Hknown. induction n as [|n IH]; intros result i j Hn Hsub Hr;
    rewrite diff_loop_step.
  - rewrite lookup_ge_None_2 by lia. rewrite drop_ge by lia.
    by apply pushSplice_nothing_inserted.
  - destruct (before !! i) as [b|] eqn:Eb.
    2:{ apply lookup_ge_None_1 in Eb. rewrite (drop_ge before) in Hsub by lia.
        apply sublist_nil_r in Hsub. rewrite Hsub.
        by apply pushSplice_nothing_inserted. }
    destruct (after !! j) as [a|] eqn:Ea;
      [|by apply pushSplice_nothing_inserted].
    pose proof (lookup_lt_Some _ _ _ Eb). pose proof (lookup_lt_Some _ _ _ Ea).
    rewrite (drop_S _ _ _ Ea), (drop_S _ _ _ Eb) in Hsub.
    case_bool_decide as Heq.
    + subst a. rewrite !Nat.add_1_r. apply IH; [lia| |done].
      by eapply sublist_cons_same.
    + rewrite (Hknown a) by (by eapply list_elem_of_lookup_2).
      rewrite Nat.add_1_r. apply IH; [lia| |by apply pushSplice_nothing_inserted].
      rewrite (drop_S _ _ _ Ea). eapply sublist_cons_ne; [|exact Hsub]. congruence.
Qed.

Lemma diff_loop_only_inserts before after contains n :
  NoDup after →
  (∀ x, contains x = true ↔ x ∈ before) →
  ∀ result i j,
    (length before - i) + (length after - j) ≤ n →
    drop i before `sublist_of` drop j after →
    (∀ x, x ∈ take i before → x ∈ take j after) →
    Forall (λ s, deleteCount s = 0) result →
    Forall (λ s, deleteCount s = 0)
           (diff_loop before after contains result i j).
Proof.
  intros Hnodup Hcontains.
  induction n as [|n IH]; intros result i j Hn Hsub Hseen Hr;
    rewrite diff_loop_step.
  - rewrite lookup_ge_None_2 by lia. by apply pushSplice_nothing_deleted.
  - destruct (before !! i) as [b|] eqn:Eb;
      [|by apply pushSplice_nothing_deleted].
    pose proof (lookup_lt_Some _ _ _ Eb).
    rewrite (drop_S _ _ _ Eb) in Hsub.
    destruct (after !! j) as [a|] eqn:Ea.
    2:{ apply lookup_ge_None_1 in Ea. rewrite (drop_ge after) in Hsub by lia.
        by apply sublist_nil_r in Hsub. }
    pose proof (lookup_lt_Some _ _ _ Ea).
    rewrite (drop_S _ _ _ Ea) in Hsub.
    assert (Hfresh : (a ∉ take j after) ∧ (a ∉ drop (S j) after)).
    { rewrite <- (take_drop j after), (drop_S _ _ _ Ea) in Hnodup.
      apply NoDup_app in Hnodup as (_ & Hdisj & Htail).
      apply NoDup_cons in Htail as [Hnot _]. split; [|done].
      intros Hin. apply (Hdisj a Hin). by left. }
    case_bool_decide as Heq.
    + subst a. rewrite !Nat.add_1_r. apply IH; [lia| | |done].
      * by eapply sublist_cons_same.
      * intros x. rewrite (take_S_r _ _ _ Eb), (take_S_r _ _ _ Ea), !elem_of_app.
        intros [Hx|Hx]; [left; by apply Hseen|by right].
    + assert (Hskip : b :: drop (S i) before `sublist_of` drop (S j) after)
        by (eapply sublist_cons_ne; [|exact Hsub]; congruence).
      destruct (contains a) eqn:Ec.
      * exfalso. apply Hcontains in Ec.
        rewrite <- (take_drop i before), (drop_S _ _ _ Eb), elem_of_app in Ec.
        destruct Ec as [Hin|Hin].
        -- by apply (proj1 Hfresh), Hseen.
        -- apply (proj2 Hfresh). by eapply sublist_subseteq.
      * rewrite Nat.add_1_r. apply IH; [lia| | |by apply pushSplice_nothing_deleted].
        -- by rewrite (drop_S _ _ _ Eb).
        -- intros x Hx. rewrite (take_S_r _ _ _ Ea), elem_of_app. left. by apply Hseen.
Qed.

End only.

Section books.
Context {T K : Type} `{EqDecision T} `{EqDecision K} (key : T → K).
Implicit Types (r result : list (ISplice T)) (s latest : ISplice T).
Implicit Types (l before after ins : list T) (members : list K).

Lemma elem_of_keep_books before members s (k : K) :
  k ∈ keep_books key before members s
  ↔ (k ∈ members ∧ k ∉ removed_keys key before s) ∨ k ∈ key <$> toInsert s.
Proof.
  unfold keep_books. rewrite elem_of_app, list_elem_of_filter. tauto.
Qed.

Lemma books_snoc before r s members :
  books key before (r ++ [s]) members
  = keep_books key before (books key before r members) s.
Proof. unfold books. by rewrite foldl_app. Qed.

Lemma books_pushSplice before r i d ins members :
  (∀ s x, s ∈ r → x ∈ toInsert s → key x ∉ key <$> before) →
  ∀ k, k ∈ books key before (pushSplice r i d ins) members
       ↔ (k ∈ books key before r members
          ∧ k ∉ key <$> take d (drop i before))
         ∨ k ∈ key <$> ins.
Proof.
  intros Hins k.
  destruct (pushSplice_cases r i d ins)
    as [(-> & -> & ->)|[(r0 & latest & -> & Hend & Hne & ->)|(Hne & Hlast & ->)]].
  - simpl. rewrite elem_of_nil. tauto.
  - rewrite !books_snoc, !elem_of_keep_books.
    unfold removed_keys. simpl.
    rewrite <- (take_take_drop (drop (start latest) before)), drop_drop.
    unfold splice_end in Hend. rewrite Hend.
    rewrite !fmap_app, !elem_of_app.
    assert (Hsafe : k ∈ key <$> toInsert latest →
                    k ∉ key <$> take d (drop i before)).
    { intros (x & -> & Hx)%list_elem_of_fmap Hin.
      apply (Hins latest x); [apply elem_of_app; right; by left|done|].
      apply list_elem_of_fmap in Hin as (y & Hy & Hin).
      apply list_elem_of_fmap. exists y. split; [done|].
      eapply sublist_subseteq; [|exact Hin].
      etrans; [apply sublist_take|apply sublist_drop]. }
    tauto.
  - rewrite books_snoc, elem_of_keep_books. unfold removed_keys. simpl. tauto.
Qed.

Lemma pushSplice_toInsert r i d ins s (x : T) :
  s ∈ pushSplice r i d ins → x ∈ toInsert s →
  (∃ s', s' ∈ r ∧ x ∈ toInsert s') ∨ x ∈ ins.
Proof.
  destruct (pushSplice_cases r i d ins)
    as [(_ & _ & ->)|[(r0 & latest & -> & _ & _ & ->)|(_ & _ & ->)]].
  - eauto.
  - rewrite elem_of_app, list_elem_of_singleton. intros [Hs| ->]; simpl.
    + intros Hx. left. exists s. split; [|done]. apply elem_of_app. by left.
    + rewrite elem_of_app. intros [Hx|Hx]; [left|by right].
      exists latest. split; [|done]. apply elem_of_app. right. by left.
  - rewrite elem_of_app, list_elem_of_singleton. intros [Hs| ->]; simpl; eauto.
Qed.

Section loop.
Variables (before after : list T) (contains : T → bool) (members0 : list K).
Hypothesis Hnodup : NoDup (key <$> before).
Hypothesis Hmembers : ∀ k, k ∈ members0 ↔ k ∈ key <$> before.
Hypothesis Hcontains : ∀ x, contains x = true ↔ key x ∈ members0.

Lemma key_apart i (k : K) :
  k ∈ key <$> take i before → k ∉ key <$> drop i before.
Proof.
  intros Hin Hin'. rewrite <- (take_drop i before), fmap_app in Hnodup.
  apply NoDup_app in Hnodup as (_ & Hdisj & _). by apply (Hdisj k).
Qed.

Lemma key_at i (b : T) :
  before !! i = Some b →
  key b ∈ key <$> before
  ∧ (key b ∉ key <$> take i before)
  ∧ (key b ∉ key <$> drop (S i) before).
Proof.
  intros Eb. split; [|split].
  - apply list_elem_of_fmap_2. by eapply list_elem_of_lookup_2.
  - intros Hin. apply (key_apart i _ Hin).
    rewrite (drop_S _ _ _ Eb), fmap_cons. by left.
  - apply (key_apart (S i)). rewrite (take_S_r _ _ _ Eb), fmap_app, elem_of_app.
    right. simpl. by left.
Qed.

Lemma books_diff_loop n :
  ∀ result i j,
    (length before - i) + (length after - j) ≤ n →
    (∀ k, k ∈ books key before result members0
          ↔ k ∈ key <$> take j after ∨ k ∈ key <$> drop i before) →
    (∀ x, x ∈ take j after →
          key x ∈ key <$> take i before ∨ key x ∉ key <$> before) →
    (∀ s x, s ∈ result → x ∈ toInsert s → key x ∉ key <$> before) →
    ∀ k, k ∈ books key before
                (diff_loop before after contains result i j) members0
         ↔ k ∈ key <$> after.
Proof.
  induction n as [|n IH]; intros result i j Hn Hbooks Hseen Hins;
    rewrite diff_loop_step.
  - rewrite lookup_ge_None_2 by lia. intros k.
    rewrite (books_pushSplice _ _ _ _ _ _ Hins), Hbooks. simpl.
    rewrite !drop_ge, firstn_all2 by lia. rewrite fmap_nil, elem_of_nil. tauto.
  - destruct (before !! i) as [b|] eqn:Eb.
    2:{ apply lookup_ge_None_1 in Eb. intros k.
        rewrite (books_pushSplice _ _ _ _ _ _ Hins), Hbooks. simpl.
        rewrite (drop_ge before) by lia. rewrite fmap_nil, elem_of_nil.
        rewrite <- (take_drop j after) at 3. rewrite fmap_app, elem_of_app.
        tauto. }
    pose proof (lookup_lt_Some _ _ _ Eb).
    destruct (key_at _ _ Eb) as (Hb1 & Hb2 & Hb3).
    destruct (after !! j) as [a|] eqn:Ea.
    2:{ apply lookup_ge_None_1 in Ea. intros k.
        rewrite (books_pushSplice _ _ _ _ _ _ Hins), Hbooks.
        rewrite firstn_all2 in Hseen |- * by lia.
        rewrite (firstn_all2 (drop i before)) by (rewrite length_drop; lia).
        rewrite fmap_nil, elem_of_nil. split; [tauto|].
        intros Hk. left. split; [by left|]. intros Hk'.
        apply list_elem_of_fmap in Hk as (x & -> & Hx).
        destruct (Hseen x Hx) as [Hold|Hnew].
        - by eapply key_apart.
        - apply Hnew. apply list_elem_of_fmap in Hk' as (y & Hy & Hin).
          apply list_elem_of_fmap. exists y. split; [done|].
          by eapply sublist_subseteq; [apply sublist_drop|]. }
    pose proof (lookup_lt_Some _ _ _ Ea).
    case_bool_decide as Heq; [|destruct (contains a) eqn:Ec].
    + subst a. rewrite !Nat.add_1_r. apply IH; [lia| | |done].
      * intros k. rewrite Hbooks, (take_S_r _ _ _ Ea), (drop_S _ _ _ Eb).
        rewrite fmap_app, fmap_cons, elem_of_app, elem_of_cons.
        change (key <$> [b]) with [key b].
        rewrite list_elem_of_singleton. tauto.
      * intros x. rewrite (take_S_r _ _ _ Ea), (take_S_r _ _ _ Eb).
        rewrite fmap_app, !elem_of_app, list_elem_of_singleton.
        intros [Hx| ->]; [|left; right; by left].
        destruct (Hseen x Hx); tauto.
    + rewrite Nat.add_1_r. apply IH; [lia| | |].
      * intros k. rewrite (books_pushSplice _ _ _ _ _ _ Hins), Hbooks.
        rewrite (drop_S _ _ _ Eb).
        change (take 1 (b :: drop (S i) before)) with [b].
        change (key <$> [b]) with [key b].
        rewrite fmap_nil, elem_of_nil, fmap_cons.
        rewrite list_elem_of_singleton, elem_of_cons.
        split; [tauto|]. intros [Hk|Hk]; left; (split; [tauto|]); intros ->.
        -- apply list_elem_of_fmap in Hk as (x & Hkx & Hx).
           destruct (Hseen x Hx) as [Hold|Hnew]; congruence.
        -- done.
      * intros x Hx. rewrite (take_S_r _ _ _ Eb), fmap_app, elem_of_app.
        destruct (Hseen x Hx); tauto.
      * intros s x Hs Hx.
        destruct (pushSplice_toInsert _ _ _ _ _ _ Hs Hx) as [(s' & Hs' & Hx')|Hx'];
          [by eapply Hins|by apply elem_of_nil in Hx'].
    + assert (Hnew : key a ∉ key <$> before).
      { rewrite <- Hmembers, <- Hcontains. congruence. }
      rewrite Nat.add_1_r. apply IH; [lia| | |].
      * intros k. rewrite (books_pushSplice _ _ _ _ _ _ Hins), Hbooks.
        rewrite (take_S_r _ _ _ Ea).
        change (take 0 (drop i before)) with (@nil T).
        rewrite fmap_nil, fmap_app, elem_of_app, elem_of_nil. tauto.
      * intros x. rewrite (take_S_r _ _ _ Ea), elem_of_app, list_elem_of_singleton.
        intros [Hx| ->]; [by apply Hseen|by right].
      * intros s x Hs Hx.
        destruct (pushSplice_toInsert _ _ _ _ _ _ Hs Hx) as [(s' & Hs' & Hx')|Hx'];
          [by eapply Hins|].
        by apply list_elem_of_singleton in Hx' as ->.
Qed.

(** After the books have been kept over the splices of a diff, the
    members are the keys of [after]. *)
Lemma books_diff (k : K) :
  k ∈ books key before (diff before after contains) members0
  ↔ k ∈ key <$> after.
Proof.
  unfold diff. eapply books_diff_loop; [reflexivity| | |].
  - intros k'. simpl. rewrite Hmembers, drop_0, elem_of_nil. tauto.
  - intros x Hx. by apply elem_of_nil in Hx.
  - intros s x Hs. by apply elem_of_nil in Hs.
Qed.

End loop.
End books.
End DiffBooks.

(** ** What the diff engine guarantees besides *)

Section diff_extras.
Import Diff DiffFacts DiffViews DiffMore DiffBooks.
Context {T : Type} `{EqDecision T}.

(** X1. The splices of a diff stay within [before] and come in order: each
    starts strictly after the end of every earlier one. *)
Theorem diff_splices_ordered (before after : list T) (contains : T → bool) :
  Forall (λ s, start s + deleteCount s ≤ length before)
         (diff before after contains)
  ∧ (∀ i j s1 s2,
       i < j →
       diff before after contains !! i = Some s1 →
       diff before after contains !! j = Some s2 →
       start s1 + deleteCount s1 < start s2).
Proof.
  destruct (diff_edits before after contains) as [Hfits _]. split.
  - eapply Forall_impl; [exact (fits_bounds _ _ _ Hfits)|].
    unfold splice_end. simpl. intros; lia.
  - intros i j s1 s2 Hij H1 H2.
    exact (fits_pairwise _ _ _ _ _ _ _ Hfits Hij H1 H2).
Qed.

(** X2. No splice of a diff is empty: each deletes or inserts something. *)
Theorem diff_no_empty_splice (before after : list T) (contains : T → bool) :
  Forall (λ s, deleteCount s ≠ 0 ∨ toInsert s ≠ [])
         (diff before after contains).
Proof.
  unfold diff.
  eapply (diff_loop_closed (Forall (λ s, deleteCount s ≠ 0 ∨ toInsert s ≠ [])));
    [intros; by apply pushSplice_nonempty|reflexivity|constructor].
Qed.

(** X3. The splices of a diff account for the lengths: what [after] has is
    what [before] has, less what is deleted, plus what is inserted. *)
Theorem diff_length_balance (before after : list T) (contains : T → bool) :
  length after + deleted_total (diff before after contains)
  = length before + inserted_total (diff before after contains).
Proof.
  destruct (diff_edits before after contains) as [Hfits Happ].
  rewrite drop_all, app_nil_r in Happ.
  pose proof (apply_reversed_length _ _ _ before Hfits (Nat.le_refl _)) as Hlen.
  by rewrite Happ in Hlen.
Qed.

(** X4. Applied first entry first to the array as it is mutated, the
    splices of a diff rebuild [after] when each start is moved by what the
    earlier splices have inserted and deleted. *)
Theorem diff_apply_shifted (before after : list T) (contains : T → bool) :
  apply_shifted 0 0 (diff before after contains) before = after.
Proof.
  destruct (diff_edits before after contains) as [Hfits Happ].
  rewrite drop_all, app_nil_r in Happ.
  pose proof (apply_shifted_reversed (length before) before
                (diff before after contains) 0 [] 0 0 Hfits
                (Nat.le_refl _) (Nat.le_0_l _) eq_refl) as Hs.
  by rewrite drop_0, Happ in Hs.
Qed.

(** X5. A common prefix is skipped: the diff of two sequences that start
    with the same [p] is the diff of what follows [p], moved [length p]
    positions to the right. *)
Theorem diff_common_prefix_shifts (p before after : list T) (contains : T → bool) :
  diff (p ++ before) (p ++ after) contains
  = shift_splice (length p) <$> diff before after contains.
Proof. apply diff_common_prefix. Qed.

(** X6. Appending to a sequence gives one insertion at its end, and cutting
    a sequence short gives one deletion from there on. *)
Theorem diff_append_truncate (l tail : list T) (contains : T → bool) :
  tail ≠ [] →
  diff l (l ++ tail) contains = [mkSplice (length l) 0 tail]
  ∧ diff (l ++ tail) l contains = [mkSplice (length l) (length tail) []].
Proof.
  intros Hne. split; [by apply diff_append|by apply diff_truncate].
Qed.

(** X7. When [after] is [before] with some elements left out, and
    [contains] knows the elements of [after], the diff only deletes. *)
Theorem diff_only_deletes (before after : list T) (contains : T → bool) :
  after `sublist_of` before →
  (∀ x, x ∈ after → contains x = true) →
  Forall (λ s, toInsert s = []) (diff before after contains).
Proof.
  intros Hsub Hknown. unfold diff.
  eapply diff_loop_only_deletes; [exact Hknown|reflexivity| |constructor].
  by rewrite !drop_0.
Qed.

(** X8. When [after] is [before] with some elements put in, has no element
    twice, and [contains] tells the elements of [before], the diff only
    inserts. *)
Theorem diff_only_inserts (before after : list T) (contains : T → bool) :
  before `sublist_of` after →
  NoDup after →
  (∀ x, contains x = true ↔ x ∈ before) →
  Forall (λ s, deleteCount s = 0) (diff before after contains).
Proof.
  intros Hsub Hnodup Hcontains. unfold diff.
  eapply diff_loop_only_inserts; [done|done|reflexivity| | |constructor].
  - by rewrite !drop_0.
  - intros x Hx. by apply elem_of_nil in Hx.
Qed.

End diff_extras.

(** X6 at [[1; 2]] followed by [[3]]. *)
Lemma diff_append_truncate_witness :
  [3] ≠ ([] : list nat)
  ∧ Diff.diff [1; 2] ([1; 2] ++ [3]) (λ _, false) = [Diff.mkSplice 2 0 [3]]
  ∧ Diff.diff ([1; 2] ++ [3]) [1; 2] (λ _, false) = [Diff.mkSplice 2 1 []].
Proof.
  split; [discriminate|].
  apply (diff_append_truncate [1; 2] [3] (λ _, false)). discriminate.
Defined.

(** X7 at [[1; 2; 3; 4]] from which 2 and 4 are left out. *)
Lemma diff_only_deletes_witness :
  Forall (λ s : Diff.ISplice nat, Diff.toInsert s = [])
         (Diff.diff [1; 2; 3; 4] [1; 3] (λ x, bool_decide (x ∈ [1; 2; 3; 4]))).
Proof.
  apply diff_only_deletes.
  - apply (sublist_skip 1), sublist_cons, (sublist_skip 3), sublist_cons, sublist_nil.
  - intros x Hx. apply bool_decide_eq_true_2.
    eapply sublist_subseteq; [|exact Hx].
    apply (sublist_skip 1), sublist_cons, (sublist_skip 3), sublist_cons, sublist_nil.
Defined.

(** X8 at [[1; 3]] into which 2 and 4 are put. *)
Lemma diff_only_inserts_witness :
  Forall (λ s : Diff.ISplice nat, Diff.deleteCount s = 0)
         (Diff.diff [1; 3] [1; 2; 3; 4] (λ x, bool_decide (x ∈ [1; 3]))).
Proof.
  apply diff_only_inserts.
  - apply (sublist_skip 1), sublist_cons, (sublist_skip 3), sublist_cons, sublist_nil.
  - by apply (bool_decide_unpack _).
  - intros x. apply bool_decide_eq_true.
Defined.

(** ** The outputs of a cell *)

Module CellOutputsFacts.
Import Diff DiffFacts DiffViews DiffMore DiffBooks CellOutputs.

Section facts.
Context {T : Type} `{EqDecision T}.
Implicit Types (members : list T) (s : ISplice T).

Lemma elem_of_Set_add members (x y : T) :
  y ∈ Set_add members x ↔ y ∈ members ∨ y = x.
Proof.
  unfold Set_add. case_bool_decide as Hin.
  - split; [tauto|]. by intros [?| ->].
  - by rewrite elem_of_app, list_elem_of_singleton.
Qed.

Lemma elem_of_Set_delete members (x y : T) :
  y ∈ Set_delete members x ↔ y ∈ members ∧ y ≠ x.
Proof. unfold Set_delete. rewrite list_elem_of_filter. tauto. Qed.

Lemma elem_of_foldl_Set_add members (ins : list T) (y : T) :
  y ∈ foldl Set_add members ins ↔ y ∈ members ∨ y ∈ ins.
Proof.
  revert members. induction ins as [|x ins IH]; intros members; simpl.
  - rewrite elem_of_nil. tauto.
  - rewrite IH, elem_of_Set_add, elem_of_cons. tauto.
Qed.

Lemma elem_of_forget_range (outputs0 : list T) (d : nat) :
  ∀ members st (y : T),
    y ∈ foldl (λ m i, match outputs0 !! i with
                      | Some x => Set_delete m x
                      | None => m
                      end) members (seq st d)
    ↔ y ∈ members ∧ y ∉ take d (drop st outputs0).
Proof.
  induction d as [|d IH]; intros members st y; simpl.
  - rewrite elem_of_nil. tauto.
  - rewrite IH. destruct (outputs0 !! st) as [x|] eqn:Ex.
    + rewrite elem_of_Set_delete, (drop_S _ _ _ Ex). simpl.
      rewrite elem_of_cons. tauto.
    + apply lookup_ge_None_1 in Ex.
      rewrite !drop_ge by lia. rewrite take_nil. simpl. tauto.
Qed.

Lemma elem_of_track_outputs (outputs0 : list T) members s (y : T) :
  y ∈ track_outputs outputs0 members s
  ↔ y ∈ keep_books id outputs0 members s.
Proof.
  unfold track_outputs, forget_outputs.
  rewrite elem_of_foldl_Set_add, elem_of_forget_range, elem_of_keep_books.
  unfold removed_keys. by rewrite !list_fmap_id.
Qed.

Lemma elem_of_tracked (outputs0 : list T) (r : list (ISplice T)) :
  ∀ members members',
    (∀ y, y ∈ members ↔ y ∈ members') →
    ∀ y, y ∈ foldl (track_outputs outputs0) members r
         ↔ y ∈ books id outputs0 r members'.
Proof.
  induction r as [|s r IH]; intros members members' Hsame y; simpl; [done|].
  apply IH. intros z.
  rewrite elem_of_track_outputs, !elem_of_keep_books, Hsame. tauto.
Qed.

End facts.
End CellOutputsFacts.

Section cell_outputs_extras.
Import Diff DiffViews DiffBooks CellOutputs CellOutputsFacts.
Context {T : Type} `{EqDecision T}.

(** X9. When the outputs of a cell are all different objects and
    [_outputMapping] holds exactly these, then after [set outputs] the cell
    has the new outputs, the splices fired are the diff of the old and the
    new outputs, and [_outputMapping] holds exactly the new outputs. *)
Theorem set_outputs_tracks (newOutputs : list T) (cell : ExtHostCellOutputs) :
  NoDup (_outputs cell) →
  (∀ x, x ∈ _outputMapping cell ↔ x ∈ _outputs cell) →
  _outputs (set_outputs newOutputs cell).1 = newOutputs
  ∧ (set_outputs newOutputs cell).2
    = diff (_outputs cell) newOutputs (Set_has (_outputMapping cell))
  ∧ (∀ x, x ∈ _outputMapping (set_outputs newOutputs cell).1 ↔ x ∈ newOutputs).
Proof.
  intros Hnodup Hmapping. split; [done|]. split; [done|].
  intros x. unfold set_outputs. simpl.
  rewrite (elem_of_tracked _ _ _ (_outputMapping cell)) by done.
  rewrite (books_diff id (_outputs cell) newOutputs
             (Set_has (_outputMapping cell)) (_outputMapping cell)).
  - by rewrite list_fmap_id.
  - by rewrite list_fmap_id.
  - intros k. by rewrite list_fmap_id.
  - intros y. unfold Set_has. apply bool_decide_eq_true.
Qed.

End cell_outputs_extras.

(** X9 on a cell with outputs 1, 2, 3 that gets the outputs 3, 4, 1. *)
Lemma set_outputs_tracks_witness :
  let cell := CellOutputs.mkOutputs [1; 2; 3] [1; 2; 3] in
  CellOutputs._outputs (CellOutputs.set_outputs [3; 4; 1] cell).1 = [3; 4; 1]
  ∧ (CellOutputs.set_outputs [3; 4; 1] cell).2
    = Diff.diff [1; 2; 3] [3; 4; 1] (CellOutputs.Set_has [1; 2; 3])
  ∧ (∀ x : nat, x ∈ CellOutputs._outputMapping
                      (CellOutputs.set_outputs [3; 4; 1] cell).1
                ↔ x ∈ [3; 4; 1]).
Proof.
  apply (set_outputs_tracks [3; 4; 1] (CellOutputs.mkOutputs [1; 2; 3] [1; 2; 3])).
  - by apply (bool_decide_unpack _).
  - done.
Defined.

(** ** The subscriptions of a document *)

Module SubscriptionFacts.
Import Diff DiffFacts DiffViews DiffMore DiffBooks Notebook NotebookFacts.

(** *** Methods that leave the document as it is *)

Lemma mapWith_this {A B S : Type} (f : S → A → M (B * S)) :
  (∀ acc x w, this (f acc x w).2 = this w) →
  ∀ l acc w, this (mapWith f acc l w).2 = this w.
Proof.
  intros Hf. induction l as [|x l IH]; intros acc w; simpl; [done|].
  unfold mbind, M_bind. specialize (Hf acc x w).
  destruct (f acc x w) as [[[y acc']|e] w1]; simpl in *; [|done].
  specialize (IH acc' w1).
  destruct (mapWith f acc' l w1) as [[[ys acc'']|e] w2]; simpl in *; congruence.
Qed.

Section preserved.
Variable supported : string → bool.

Lemma transformOutput_this cell renderers out w :
  this (transformOutput supported cell renderers out w).2 = this w.
Proof.
  destruct out as [text|ename evalue traceback|display]; try done.
  unfold transformOutput, mbind, M_bind.
  pose proof (transformMimeTypes_run supported cell display w) as Hrun.
  cbv zeta in Hrun. rewrite Hrun.
  match goal with
  | |- context [orderedMimeTypes ?ret !! pickedMimeTypeIndex ?ret] =>
      destruct (orderedMimeTypes ret !! pickedMimeTypeIndex ret)
  end; done.
Qed.

Lemma cellToDto_this renderers cell w :
  this (cellToDto supported renderers cell w).2 = this w.
Proof.
  unfold cellToDto, mbind, M_bind.
  pose proof (mapWith_this (transformOutput supported cell)
                (transformOutput_this cell) (outputs cell) renderers w) as Hmap.
  destruct (mapWith _ _ _ w) as [[[ys acc]|e] w1]; done.
Qed.

Lemma spliceToDto_this renderers diff0 w :
  this (spliceToDto supported renderers diff0 w).2 = this w.
Proof.
  unfold spliceToDto, mbind, M_bind.
  pose proof (mapWith_this (cellToDto supported) cellToDto_this
                (toInsert diff0) renderers w) as Hmap.
  destruct (mapWith _ _ _ w) as [[[ys acc]|e] w1]; done.
Qed.

Lemma eventuallyUpdateCells_this diffs w :
  this (eventuallyUpdateCells supported diffs w).2 = this w.
Proof.
  unfold eventuallyUpdateCells, mbind, M_bind.
  pose proof (mapWith_this (spliceToDto supported) spliceToDto_this
                diffs [] w) as Hmap.
  destruct (mapWith _ _ _ w) as [[[ys acc]|e] w1]; done.
Qed.

End preserved.

(** *** Unwiring and wiring cells *)

Lemma unwireCellAt_run (i : nat) (w : World) (cell : ExtHostCell) :
  _cells (this w) !! i = Some cell →
  ∃ t,
    unwireCellAt i w
    = (Ok tt,
       mkWorld (with_mapping (delete (handle cell) (_cellDisposableMapping (this w)))
                             (this w)) t).
Proof.
  intros Hcell. destruct w as [doc t].
  unfold unwireCellAt, mbind, M_bind, get_this. simpl in *. rewrite Hcell.
  destruct (_cellDisposableMapping doc !! handle cell) as [store|].
  - rewrite store_clear_run. simpl. eauto.
  - simpl. eauto.
Qed.

Lemma forEach_unwire_run (d : nat) :
  ∀ (st : nat) (w : World),
    st + d ≤ length (_cells (this w)) →
    ∃ mapping t,
      forEach unwireCellAt (seq st d) w
      = (Ok tt, mkWorld (with_mapping mapping (this w)) t)
      ∧ ∀ k, k ∈ dom mapping
             ↔ k ∈ dom (_cellDisposableMapping (this w))
               ∧ k ∉ handle <$> take d (drop st (_cells (this w))).
Proof.
  induction d as [|d IH]; intros st w Hlen; simpl.
  - exists (_cellDisposableMapping (this w)), (trace w). split.
    + by destruct w as [[] ?].
    + intros k. rewrite elem_of_nil. tauto.
  - destruct (lookup_lt_is_Some_2 (_cells (this w)) st ltac:(lia)) as [cell Hcell].
    destruct (unwireCellAt_run st w cell Hcell) as [t1 Hrun].
    unfold mbind, M_bind. rewrite Hrun.
    edestruct (IH (S st) (mkWorld (with_mapping
                    (delete (handle cell) (_cellDisposableMapping (this w)))
                    (this w)) t1)) as (mapping & t2 & Hrest & Hdom);
      [simpl; lia|].
    simpl in *. exists mapping, t2. split; [exact Hrest|].
    intros k. rewrite Hdom, dom_delete, elem_of_difference, elem_of_singleton.
    rewrite (drop_S _ _ _ Hcell). simpl. rewrite elem_of_cons. tauto.
Qed.

Lemma wireCell_run (cell : ExtHostCell) (w : World) :
  ∃ mapping t,
    wireCell cell w = (Ok tt, mkWorld (with_mapping mapping (this w)) t)
    ∧ ∀ k, k ∈ dom mapping
           ↔ k ∈ dom (_cellDisposableMapping (this w)) ∨ k = handle cell.
Proof.
  destruct w as [doc t].
  unfold wireCell, mbind, M_bind, get_this, set_this, emit. simpl.
  rewrite lookup_insert_eq. simpl.
  eexists. eexists. split; [reflexivity|].
  intros k. rewrite !dom_insert, !elem_of_union, !elem_of_singleton. tauto.
Qed.

Lemma forEach_wire_run (ins : list ExtHostCell) :
  ∀ w : World,
    ∃ mapping t,
      forEach wireCell ins w
      = (Ok tt, mkWorld (with_mapping mapping (this w)) t)
      ∧ ∀ k, k ∈ dom mapping
             ↔ k ∈ dom (_cellDisposableMapping (this w)) ∨ k ∈ handle <$> ins.
Proof.
  induction ins as [|cell ins IH]; intros w; simpl.
  - exists (_cellDisposableMapping (this w)), (trace w). split.
    + by destruct w as [[] ?].
    + intros k. rewrite elem_of_nil. tauto.
  - destruct (wireCell_run cell w) as (m1 & t1 & Hrun & Hdom1).
    unfold mbind, M_bind. rewrite Hrun.
    destruct (IH (mkWorld (with_mapping m1 (this w)) t1))
      as (mapping & t2 & Hrest & Hdom).
    simpl in *. exists mapping, t2. split; [exact Hrest|].
    intros k. rewrite Hdom, Hdom1, elem_of_cons. tauto.
Qed.

(** The [diffs.forEach] of the [cells] setter keeps the books of
    [books handle]. *)
Lemma forEach_diffs_run (diffs : list (ISplice ExtHostCell)) :
  ∀ (w : World) (members : list Z),
    Forall (λ s, start s + deleteCount s ≤ length (_cells (this w))) diffs →
    (∀ k, k ∈ dom (_cellDisposableMapping (this w)) ↔ k ∈ members) →
    ∃ mapping t,
      forEach (λ diff0,
                 forEach unwireCellAt (seq (start diff0) (deleteCount diff0)) ;;
                 forEach wireCell (toInsert diff0)) diffs w
      = (Ok tt, mkWorld (with_mapping mapping (this w)) t)
      ∧ ∀ k, k ∈ dom mapping
             ↔ k ∈ books handle (_cells (this w)) diffs members.
Proof.
  induction diffs as [|s diffs IH]; intros w members Hfit Hmembers; simpl.
  - exists (_cellDisposableMapping (this w)), (trace w). split.
    + by destruct w as [[] ?].
    + done.
  - rewrite Forall_cons in Hfit. destruct Hfit as [Hs Hfit].
    destruct (forEach_unwire_run (deleteCount s) (start s) w Hs)
      as (m1 & t1 & Hrun1 & Hdom1).
    destruct (forEach_wire_run (toInsert s) (mkWorld (with_mapping m1 (this w)) t1))
      as (m2 & t2 & Hrun2 & Hdom2).
    unfold mbind, M_bind in *. rewrite Hrun1, Hrun2.
    edestruct (IH (mkWorld (with_mapping m2 (with_mapping m1 (this w))) t2)
                 (keep_books handle (_cells (this w)) members s))
      as (mapping & t3 & Hrest & Hdom); [exact Hfit| |].
    { intros k. simpl in *. rewrite Hdom2, Hdom1, elem_of_keep_books, Hmembers.
      unfold removed_keys. tauto. }
    simpl in *. exists mapping, t3. split; [exact Hrest|exact Hdom].
Qed.

End SubscriptionFacts.

Section subscription_extras.
Import Diff DiffFacts DiffViews DiffMore DiffBooks Notebook NotebookFacts.
Import SubscriptionFacts.

(** X10. A document whose cells have different handles and which has a
    store for exactly the handles of its cells still has one for exactly
    the handles of its cells after any assignment to [cells], whether the
    setter returns or throws while it builds the message for the remote
    peer. *)
Theorem set_cells_keeps_subscriptions (supported : string → bool)
    (newCells : list ExtHostCell) (w : World) :
  NoDup (handle <$> _cells (this w)) →
  dom (_cellDisposableMapping (this w)) = list_to_set (handle <$> _cells (this w)) →
  _cells (this (set_cells supported newCells w).2) = newCells
  ∧ dom (_cellDisposableMapping (this (set_cells supported newCells w).2))
    = list_to_set (handle <$> newCells).
Proof.
  intros Hnodup Hdom.
  set (contains := λ a : ExtHostCell,
         bool_decide (is_Some (_cellDisposableMapping (this w) !! handle a))).
  assert (Hmembers : ∀ k, k ∈ dom (_cellDisposableMapping (this w))
                          ↔ k ∈ handle <$> _cells (this w)).
  { intros k. by rewrite Hdom, elem_of_list_to_set. }
  destruct (diff_edits (_cells (this w)) newCells contains) as [Hfits _].
  assert (Hbound : Forall (λ s, start s + deleteCount s ≤ length (_cells (this w)))
                          (diff (_cells (this w)) newCells contains)).
  { eapply Forall_impl; [exact (fits_bounds _ _ _ Hfits)|].
    unfold splice_end. simpl. intros; lia. }
  destruct (forEach_diffs_run _ w _ Hbound Hmembers)
    as (mapping & t & Hrun & Hbooks).
  unfold set_cells, mbind, M_bind, get_this in *. cbn [this].
  fold contains. rewrite Hrun. unfold set_this. cbn [this trace fst snd].
  rewrite eventuallyUpdateCells_this. cbn [this _cells _cellDisposableMapping with_cells with_mapping].
  split; [done|].
  apply leibniz_equiv. intros k. rewrite Hbooks, elem_of_list_to_set.
  apply (books_diff handle (_cells (this w)) newCells contains
           (handle <$> _cells (this w))); [done|done|].
  intros x. unfold contains. rewrite bool_decide_eq_true, <- elem_of_dom.
  apply Hmembers.
Qed.

(** X11. Assigning to [cells] the list the document already has changes
    neither the cells nor the stores, and still sends the remote peer one
    [spliceNotebookCells] call, with no splice in it. *)
Theorem set_cells_same (supported : string → bool) (w : World) :
  set_cells supported (_cells (this w)) w
  = (Ok tt,
     mkWorld (this w)
             (trace w ++ [Proxy (spliceNotebookCells (viewType (this w))
                                                     (uri (this w)) [] [])])).
Proof.
  destruct w as [[cells mapping langs order vt u handler] t].
  unfold set_cells, mbind, M_bind, get_this. simpl.
  unfold diff. rewrite (diff_loop_same cells _ (length cells)) by lia.
  reflexivity.
Qed.

End subscription_extras.

(** X10 on the three cells of [Scenario.threeCells], replaced by the third,
    a new one and the first. *)
Lemma set_cells_keeps_subscriptions_witness :
  let cell4 := Notebook.mkCell 4 ["d"] Notebook.code "python" [] in
  let w := Notebook.mkWorld Scenario.threeCells [] in
  let w' := (Notebook.set_cells Scenario.noCoreSupport
               [Scenario.cell3; cell4; Scenario.cell1] w).2 in
  Notebook._cells (Notebook.this w') = [Scenario.cell3; cell4; Scenario.cell1]
  ∧ dom (Notebook._cellDisposableMapping (Notebook.this w'))
    = list_to_set (Notebook.handle <$> [Scenario.cell3; cell4; Scenario.cell1]).
Proof.
  apply (set_cells_keeps_subscriptions Scenario.noCoreSupport
           [Scenario.cell3; Notebook.mkCell 4 ["d"] Notebook.code "python" [];
            Scenario.cell1]
           (Notebook.mkWorld Scenario.threeCells [])).
  - by apply (bool_decide_unpack _).
  - reflexivity.
Defined.

(** ** Inserting and deleting single cells *)

Module NotebookOpsFacts.
Import Diff Notebook NotebookFacts NotebookOps.

Lemma store_dispose_run (store : DisposableStore) (w : World) :
  ∃ store',
    store_dispose store w
    = (Ok store',
       mkWorld (this w)
               (trace w ++ (if _isDisposed store then []
                            else disposal_events store))).
Proof.
  unfold store_dispose. destruct (_isDisposed store) eqn:Hd.
  - exists store. rewrite app_nil_r. by destruct w.
  - rewrite store_clear_run. eauto.
Qed.

(** What disposing of the store of a handle sends to the listeners. *)
Lemma deleteCell_in_range (w : World) (index : Z) (cell : ExtHostCell) :
  (0 ≤ index)%Z →
  _cells (this w) !! Z.to_nat index = Some cell →
  deleteCell index w
  = (Ok true,
     mkWorld (with_cells (delete (Z.to_nat index) (_cells (this w)))
                (with_mapping (delete (handle cell) (_cellDisposableMapping (this w)))
                              (this w)))
             (trace w
              ++ match _cellDisposableMapping (this w) !! handle cell with
                 | Some store =>
                     if _isDisposed store then [] else disposal_events store
                 | None => []
                 end)).
Proof.
  intros Hpos Hcell. pose proof (lookup_lt_Some _ _ _ Hcell) as Hlt.
  destruct w as [doc t]. simpl in *.
  unfold deleteCell, mbind, M_bind, get_this. cbn [this].
  rewrite (proj2 (Z.leb_gt _ _)) by lia.
  unfold array_get. rewrite (proj2 (Z.ltb_ge _ _)) by lia. rewrite Hcell.
  unfold array_splice. rewrite (proj2 (Z.ltb_ge _ _)) by lia.
  destruct (_cellDisposableMapping doc !! handle cell) as [store|].
  - destruct (store_dispose_run store (mkWorld doc t)) as [store' ->].
    simpl. by rewrite delete_take_drop, Nat.add_1_r.
  - simpl. by rewrite app_nil_r, delete_take_drop, Nat.add_1_r.
Qed.

Lemma list_to_set_delete_NoDup (l : list Z) (n : nat) (h : Z) :
  NoDup l → l !! n = Some h →
  list_to_set (delete n l) = (list_to_set l : gset Z) ∖ {[h]}.
Proof.
  intros Hnodup Hn.
  rewrite delete_take_drop.
  rewrite <- (take_drop n l) in Hnodup at 1. rewrite <- (take_drop n l) at 3.
  rewrite (drop_S _ _ _ Hn) in *.
  apply NoDup_app in Hnodup as (_ & Hdisj & [Hh _]%NoDup_cons).
  apply leibniz_equiv. intros k.
  rewrite elem_of_difference, !elem_of_list_to_set, !elem_of_app, elem_of_cons,
    elem_of_singleton.
  split.
  - intros [Hk|Hk]; (split; [tauto|]); intros ->; [|done].
    apply (Hdisj h Hk). by left.
  - tauto.
Qed.

Lemma array_insert_in_range {A : Type} (l : list A) (index : Z) (x : A) :
  (0 ≤ index ≤ Z.of_nat (length l))%Z →
  array_insert l index x
  = take (Z.to_nat index) l ++ x :: drop (Z.to_nat index) l
  ∧ array_insert l index x !! Z.to_nat index = Some x
  ∧ delete (Z.to_nat index) (array_insert l index x) = l.
Proof.
  intros Hrange. unfold array_insert.
  rewrite (proj2 (Z.ltb_ge _ _)) by lia.
  assert (Hlen : length (take (Z.to_nat index) l) = Z.to_nat index)
    by (rewrite length_take; lia).
  split; [done|]. split.
  - rewrite <- Hlen at 3. apply list_lookup_middle. done.
  - rewrite <- Hlen at 1. rewrite delete_middle. apply take_drop.
Qed.

Lemma insertCell_run (index : Z) (cell : ExtHostCell) (w : World) :
  insertCell index cell w
  = (Ok tt,
     mkWorld
       (with_mapping
          (<[handle cell :=
               store_add (OutputsListener (handle cell))
                 (default new_DisposableStore
                          (_cellDisposableMapping (this w) !! handle cell))]>
             (_cellDisposableMapping (this w)))
          (with_cells (array_insert (_cells (this w)) index cell) (this w)))
       (trace w ++ [Subscribed (handle cell)])).
Proof.
  destruct w as [doc t].
  unfold insertCell, mbind, M_bind, get_this, set_this. cbn [this trace].
  cbn [_cellDisposableMapping with_cells].
  destruct (_cellDisposableMapping doc !! handle cell) as [store|] eqn:Hs.
  - rewrite bool_decide_eq_true_2 by done. simpl. by rewrite Hs.
  - rewrite bool_decide_eq_false_2 by (intros [? ?]; done). simpl.
    rewrite lookup_insert_eq. simpl. by rewrite insert_insert_eq.
Qed.

End NotebookOpsFacts.

Section single_cell_extras.
Import Diff Notebook NotebookFacts NotebookOps NotebookOpsFacts.

(** X12. At an index within the cell list, [deleteCell] returns [true],
    takes the cell at that index out of the list, disposes of the store of
    its handle (unless it was disposed of already) and deletes it, and
    makes no call on the remote peer. *)
Theorem deleteCell_removes (w : World) (index : Z) (cell : ExtHostCell) :
  (0 ≤ index)%Z →
  _cells (this w) !! Z.to_nat index = Some cell →
  ∃ w',
    deleteCell index w = (Ok true, w')
    ∧ _cells (this w') = delete (Z.to_nat index) (_cells (this w))
    ∧ _cellDisposableMapping (this w')
      = delete (handle cell) (_cellDisposableMapping (this w))
    ∧ trace w'
      = trace w
        ++ match _cellDisposableMapping (this w) !! handle cell with
           | Some store => if _isDisposed store then [] else disposal_events store
           | None => []
           end
    ∧ proxy_calls (trace w') = proxy_calls (trace w).
Proof.
  intros Hpos Hcell. eexists. split; [by apply deleteCell_in_range|].
  simpl. repeat split.
  unfold proxy_calls. rewrite omap_app.
  fold (proxy_calls (trace w)).
  destruct (_cellDisposableMapping (this w) !! handle cell) as [store|];
    [destruct (_isDisposed store)|]; simpl; rewrite ?app_nil_r; try done.
  fold (proxy_calls (disposal_events store)).
  by rewrite proxy_calls_disposal_events, app_nil_r.
Qed.

(** X13. [deleteCell] keeps the stores in step with the cells, whatever the
    index: when the cells have different handles and there is a store for
    exactly these handles, the same holds afterwards. *)
Theorem deleteCell_keeps_subscriptions (w : World) (index : Z) :
  NoDup (handle <$> _cells (this w)) →
  dom (_cellDisposableMapping (this w)) = list_to_set (handle <$> _cells (this w)) →
  NoDup (handle <$> _cells (this (deleteCell index w).2))
  ∧ dom (_cellDisposableMapping (this (deleteCell index w).2))
    = list_to_set (handle <$> _cells (this (deleteCell index w).2)).
Proof.
  intros Hnodup Hdom.
  destruct (decide (index < 0)%Z) as [Hneg|Hpos].
  { by rewrite deleteCell_negative. }
  destruct (_cells (this w) !! Z.to_nat index) as [cell|] eqn:Hcell.
  - rewrite (deleteCell_in_range w index cell) by (done || lia). simpl.
    rewrite list_fmap_delete. split.
    + eapply sublist_NoDup; [done|apply sublist_delete].
    + rewrite dom_delete_L, Hdom.
      symmetry. apply list_to_set_delete_NoDup; [done|].
      by rewrite list_lookup_fmap, Hcell.
  - apply lookup_ge_None_1 in Hcell.
    by rewrite deleteCell_past_the_end by lia.
Qed.

(** X14. [insertCell] puts the cell into the list at the index (clamped to
    the list), subscribes to the cell's outputs and makes no call on the
    remote peer. The store of the cell's handle is afterwards a new store
    that holds the listener when the handle had none, the store it had
    with the listener added at the end when that store was not disposed
    of, and the store it had, unchanged, when that store was disposed of:
    the listener is then not kept. The stores of the other handles are
    left alone, and when there was a store for exactly the handles of the
    cells, there still is. *)
Theorem insertCell_subscribes (w : World) (index : Z) (cell : ExtHostCell) :
  ∃ w',
    insertCell index cell w = (Ok tt, w')
    ∧ _cells (this w') = array_insert (_cells (this w)) index cell
    ∧ _cellDisposableMapping (this w') !! handle cell
      = Some match _cellDisposableMapping (this w) !! handle cell with
             | None => mkStore [OutputsListener (handle cell)] false
             | Some store =>
                 if _isDisposed store then store
                 else mkStore (_toDispose store ++ [OutputsListener (handle cell)])
                              false
             end
    ∧ (∀ h, h ≠ handle cell →
            _cellDisposableMapping (this w') !! h
            = _cellDisposableMapping (this w) !! h)
    ∧ trace w' = trace w ++ [Subscribed (handle cell)]
    ∧ (dom (_cellDisposableMapping (this w))
       = list_to_set (handle <$> _cells (this w)) →
       dom (_cellDisposableMapping (this w'))
       = list_to_set (handle <$> _cells (this w'))).
Proof.
  eexists. split; [apply insertCell_run|]. simpl.
  split; [done|]. split.
  { rewrite lookup_insert_eq. f_equal.
    destruct (_cellDisposableMapping (this w) !! handle cell) as [store|];
      [|done].
    unfold store_add. simpl. by destruct (_isDisposed store) eqn:Hdisposed. }
  split; [intros h Hne; by rewrite lookup_insert_ne|]. split; [done|].
  intros Hdom. apply leibniz_equiv. intros k.
  rewrite dom_insert, elem_of_union, elem_of_singleton, Hdom.
  rewrite !elem_of_list_to_set. unfold array_insert.
  match goal with |- context [take ?m _] => set (n := m) end.
  rewrite fmap_app, fmap_cons, elem_of_app, elem_of_cons.
  rewrite <- (take_drop n (_cells (this w))) at 1.
  rewrite fmap_app, elem_of_app. tauto.
Qed.

(** X15. Inserting a cell whose handle has no store yet at an index of the
    list (or at its end) and deleting the cell at that index again gives
    back the document as it was; the listener that was attached is
    detached. *)
Theorem insertCell_deleteCell (w : World) (index : Z) (cell : ExtHostCell) :
  (0 ≤ index ≤ Z.of_nat (length (_cells (this w))))%Z →
  _cellDisposableMapping (this w) !! handle cell = None →
  (insertCell index cell ;; deleteCell index) w
  = (Ok true,
     mkWorld (this w)
             (trace w ++ [Subscribed (handle cell); Unsubscribed (handle cell)])).
Proof.
  intros Hrange Hfresh.
  destruct (array_insert_in_range (_cells (this w)) index cell Hrange)
    as (_ & Hat & Hback).
  unfold mbind at 1, M_bind at 1. rewrite insertCell_run.
  erewrite deleteCell_in_range; [|lia|exact Hat].
  destruct w as [[cells mapping langs order vt u handler] t]. simpl in *.
  rewrite Hback, Hfresh, lookup_insert_eq. simpl.
  rewrite delete_insert_eq, delete_id by done.
  by rewrite <- app_assoc.
Qed.

End single_cell_extras.

(** X12 at index 1 of the three cells of [Scenario.threeCells]. *)
Lemma deleteCell_removes_witness :
  ∃ w',
    Notebook.deleteCell 1 (Notebook.mkWorld Scenario.threeCells [])
    = (Notebook.Ok true, w')
    ∧ Notebook._cells (Notebook.this w') = [Scenario.cell1; Scenario.cell3]
    ∧ Notebook._cellDisposableMapping (Notebook.this w')
      = delete 2%Z (Notebook._cellDisposableMapping Scenario.threeCells)
    ∧ Notebook.trace w' = [Notebook.Unsubscribed 2]
    ∧ Notebook.proxy_calls (Notebook.trace w') = [].
Proof.
  exact (deleteCell_removes (Notebook.mkWorld Scenario.threeCells []) 1
           Scenario.cell2 ltac:(done) eq_refl).
Defined.

(** X13 at index 1 of the three cells of [Scenario.threeCells]. *)
Lemma deleteCell_keeps_subscriptions_witness :
  let w' := (Notebook.deleteCell 1 (Notebook.mkWorld Scenario.threeCells [])).2 in
  NoDup (Notebook.handle <$> Notebook._cells (Notebook.this w'))
  ∧ dom (Notebook._cellDisposableMapping (Notebook.this w'))
    = list_to_set (Notebook.handle <$> Notebook._cells (Notebook.this w')).
Proof.
  apply (deleteCell_keeps_subscriptions
           (Notebook.mkWorld Scenario.threeCells []) 1).
  - by apply (bool_decide_unpack _).
  - reflexivity.
Defined.

(** X15 at the end of the three cells of [Scenario.threeCells]. *)
Lemma insertCell_deleteCell_witness :
  let cell4 := Notebook.mkCell 4 ["d"] Notebook.code "python" [] in
  (NotebookOps.insertCell 3 cell4 ;; Notebook.deleteCell 3)
    (Notebook.mkWorld Scenario.threeCells [])
  = (Notebook.Ok true,
     Notebook.mkWorld Scenario.threeCells
       ([] ++ [Notebook.Subscribed 4; Notebook.Unsubscribed 4])).
Proof.
  apply (insertCell_deleteCell (Notebook.mkWorld Scenario.threeCells []) 3
           (Notebook.mkCell 4 ["d"] Notebook.code "python" [])).
  - simpl. lia.
  - reflexivity.
Defined.

(** ** Ranks and candidates *)

Module MimeFacts.
Import Diff Notebook NotebookFacts NotebookOps.

Lemma first_match_Some (patterns : list ParsedPattern) (m : string) (i : nat) :
  first_match patterns m = Some i →
  i < length patterns ∧ ∃ p, patterns !! i = Some p ∧ p m = true.
Proof.
  revert i. induction patterns as [|p rest IH]; intros i; simpl; [done|].
  destruct (p m) eqn:Hp.
  - intros [= <-]. split; [lia|]. by exists p.
  - destruct (first_match rest m) as [j|]; [|done]. simpl. intros [= <-].
    destruct (IH j eq_refl) as [Hlt Hex]. split; [lia|done].
Qed.

Lemma first_match_None (patterns : list ParsedPattern) (m : string) :
  first_match patterns m = None ↔ ∀ p, p ∈ patterns → p m = false.
Proof.
  induction patterns as [|p rest IH]; simpl.
  - split; [|done]. by intros _ p ?%elem_of_nil.
  - destruct (p m) eqn:Hp.
    + split; [done|]. intros Hall. specialize (Hall p ltac:(by left)). congruence.
    + destruct (first_match rest m) as [j|]; simpl.
      * split; [done|]. intros Hall.
        destruct IH as [_ IH]. discriminate IH.
        intros q Hq. apply Hall. by right.
      * split; [|done]. intros _ q [->|Hq]%elem_of_cons; [done|].
        by apply IH.
Qed.

Lemma first_match_matches (patterns : list ParsedPattern) (m : string) (p : ParsedPattern) :
  p ∈ patterns → p m = true → ∃ i, first_match patterns m = Some i.
Proof.
  intros Hin Hp. destruct (first_match patterns m) as [i|] eqn:E; [eauto|].
  rewrite first_match_None in E. specialize (E p Hin). congruence.
Qed.

Lemma sort_length {A : Type} (cmp : A → A → Z) (l : list A) :
  length (sort cmp l) = length l.
Proof.
  induction l as [|x l IH]; simpl; [done|]. rewrite <- IH.
  generalize (sort cmp l). clear. intros sorted.
  induction sorted as [|y rest IH]; simpl; [done|].
  destruct (cmp x y <=? 0)%Z; simpl; lia.
Qed.

Section candidates.
Variable supported : string → bool.

Lemma candidatesFor_first doc cell out (m : string) :
  ∃ c rest, candidatesFor supported doc cell out m = c :: rest ∧ mimeType c = m.
Proof.
  unfold candidatesFor.
  destruct (findBestMatchedRenderer (renderingHandler doc) m); simpl; eauto.
Qed.

Lemma candidates_of doc cell out (ms : list string) (m : string) :
  m ∈ ms →
  ∃ c, c ∈ concat (map (candidatesFor supported doc cell out) ms)
       ∧ mimeType c = m.
Proof.
  induction ms as [|m' ms IH]; [by intros ?%elem_of_nil|].
  intros [->|Hin]%elem_of_cons; simpl.
  - destruct (candidatesFor_first doc cell out m') as (c & rest & -> & Hc).
    exists c. split; [by left|done].
  - destruct (IH Hin) as (c & Hc & Hm). exists c. split; [|done].
    apply elem_of_app. by right.
Qed.

Lemma transformOutput_no_mimetype cell renderers (display : CellDisplayOutput)
    (w : World) :
  data display = [] →
  transformOutput supported cell renderers (CellDisplay display) w
  = (Throw TypeError, w).
Proof.
  intros Hdata. unfold transformOutput, mbind, M_bind.
  pose proof (transformMimeTypes_run supported cell display w) as Hrun.
  cbv zeta in Hrun. rewrite Hrun, Hdata. simpl.
  unfold throw. destruct w as [doc t]. simpl. by rewrite app_nil_r.
Qed.

End candidates.
End MimeFacts.

Section mime_extras.
Import Diff Notebook NotebookFacts NotebookOps MimeFacts.

(** X16. The three display orders are layered: a mimetype that a pattern of
    the user order matches ranks before every mimetype that no pattern of
    the user order matches; among the latter, a mimetype that a pattern of
    the document order matches ranks before every mimetype that no pattern
    of the document order matches. *)
Theorem getMimeTypeOrder_layers (doc : ExtHostNotebookDocument)
    (core : ExtHostOutputDisplayOrder) (a b : string) :
  outputDisplayOrder (renderingHandler doc) = Some core →
  (∀ p, p ∈ default [] (userOrder core) → p b = false) →
  ((∃ p, p ∈ default [] (userOrder core) ∧ p a = true)
   ∨ ((∃ p, p ∈ _parsedDisplayOrder doc ∧ p a = true)
      ∧ (∀ p, p ∈ _parsedDisplayOrder doc → p b = false))) →
  getMimeTypeOrder doc a < getMimeTypeOrder doc b.
Proof.
  intros Hcore Hb Ha.
  rewrite !(getMimeTypeOrder_defined _ _ _ Hcore). unfold rank_spec.
  apply first_match_None in Hb. rewrite Hb.
  destruct Ha as [(p & Hp & Hpa)|[(p & Hp & Hpa) Hdb]].
  - destruct (first_match_matches _ _ _ Hp Hpa) as [i Hi]. rewrite Hi.
    apply first_match_Some in Hi as [Hlt _].
    destruct (first_match (_parsedDisplayOrder doc) b); [lia|].
    destruct (first_match (defaultOrder core) b); lia.
  - apply first_match_None in Hdb. rewrite Hdb.
    destruct (first_match (default [] (userOrder core)) a) as [i|] eqn:Hi.
    + apply first_match_Some in Hi as [Hlt _].
      destruct (first_match (defaultOrder core) b); lia.
    + destruct (first_match_matches _ _ _ Hp Hpa) as [j Hj]. rewrite Hj.
      apply first_match_Some in Hj as [Hlt _].
      destruct (first_match (defaultOrder core) b); lia.
Qed.

(** X17. Once the core display order has been received, a rank never
    exceeds the number of patterns of the three orders, and it equals that
    number exactly for the mimetypes that no pattern matches. *)
Theorem getMimeTypeOrder_bound (doc : ExtHostNotebookDocument)
    (core : ExtHostOutputDisplayOrder) (m : string) :
  outputDisplayOrder (renderingHandler doc) = Some core →
  let patterns :=
    default [] (userOrder core) ++ _parsedDisplayOrder doc ++ defaultOrder core in
  getMimeTypeOrder doc m ≤ length patterns
  ∧ (getMimeTypeOrder doc m = length patterns
     ↔ ∀ p, p ∈ patterns → p m = false).
Proof.
  intros Hcore patterns. subst patterns.
  rewrite (getMimeTypeOrder_defined _ _ _ Hcore). unfold rank_spec.
  rewrite !length_app.
  assert (Hall : ∀ l1 l2 l3 : list ParsedPattern,
            (∀ p, p ∈ l1 ++ l2 ++ l3 → p m = false)
            ↔ (∀ p, p ∈ l1 → p m = false) ∧ (∀ p, p ∈ l2 → p m = false)
              ∧ (∀ p, p ∈ l3 → p m = false)).
  { intros l1 l2 l3. split.
    - intros Hall. repeat split; intros p Hp; apply Hall;
        rewrite !elem_of_app; tauto.
    - intros (H1 & H2 & H3) p. rewrite !elem_of_app. intros [?|[?|?]]; eauto. }
  rewrite Hall, <- !first_match_None.
  destruct (first_match (default [] (userOrder core)) m) as [i|] eqn:Hu.
  { apply first_match_Some in Hu as [Hlt _]. split; [lia|].
    split; [lia|]. by intros (? & _). }
  destruct (first_match (_parsedDisplayOrder doc) m) as [i|] eqn:Hd.
  { apply first_match_Some in Hd as [Hlt _]. split; [lia|].
    split; [lia|]. by intros (_ & ? & _). }
  destruct (first_match (defaultOrder core) m) as [i|] eqn:Hf.
  { apply first_match_Some in Hf as [Hlt _]. split; [lia|].
    split; [lia|]. by intros (_ & _ & ?). }
  split; [lia|]. split; [done|intros _; lia].
Qed.

(** X18. For a display output, [findRichestMimeType] returns nothing
    exactly when the output has no mimetype; otherwise it returns one of
    the output's mimetypes, none of the others has a smaller rank, and it
    is the mimetype of the candidate that [transformMimeTypes] puts at
    index 0. For stream and error outputs it returns nothing. *)
Theorem findRichestMimeType_first (supported : string → bool)
    (cell : ExtHostCell) (display : CellDisplayOutput) (w : World) :
  match findRichestMimeType (this w) (CellDisplay display) with
  | Some m =>
      m ∈ (data display).*1
      ∧ (∀ m', m' ∈ (data display).*1 →
               getMimeTypeOrder (this w) m ≤ getMimeTypeOrder (this w) m')
      ∧ ∃ ret w' c,
          transformMimeTypes supported cell display w = (Ok ret, w')
          ∧ orderedMimeTypes ret !! 0 = Some c
          ∧ mimeType c = m
  | None => data display = []
  end
  ∧ (∀ text, findRichestMimeType (this w) (CellStreamOutput text) = None)
  ∧ (∀ ename evalue traceback,
       findRichestMimeType (this w) (CellErrorOutput ename evalue traceback) = None).
Proof.
  split; [|by split].
  pose proof (transformMimeTypes_run supported cell display w) as Hrun.
  cbv zeta in Hrun. unfold findRichestMimeType.
  pose proof (sort_sorted (getMimeTypeOrder (this w)) (data display).*1) as Hsorted.
  pose proof (λ y, sort_elem_of (getMimeTypeOrder (this w)) y (data display).*1)
    as Helem.
  pose proof (sort_length (λ a b, (Z.of_nat (getMimeTypeOrder (this w) a)
                  - Z.of_nat (getMimeTypeOrder (this w) b))%Z)
                (data display).*1) as Hlen.
  destruct (sort _ (data display).*1) as [|first rest].
  - destruct (data display); [done|]. simpl in Hlen. lia.
  - split; [apply Helem; by left|]. split.
    + intros m' Hm'. apply Helem in Hm'.
      apply StronglySorted_cons in Hsorted as [Hfirst _].
      apply elem_of_cons in Hm' as [->|Hm']; [done|].
      by eapply Forall_forall in Hfirst.
    + destruct (candidatesFor_first supported (this w) cell display first)
        as (c & others & Hc & Hm).
      eexists. eexists. exists c. split; [exact Hrun|]. simpl.
      by rewrite Hc.
Qed.

(** X19. With renderers whose callbacks return, the mimetypes of the
    candidates in the result of [transformMimeTypes] are those of the
    output: every mimetype of the output has a candidate, and no candidate
    is for another mimetype. *)
Theorem transformMimeTypes_covers (supported : string → bool)
    (cell : ExtHostCell) (out : CellDisplayOutput) (w : World) :
  ∃ ret w',
    transformMimeTypes supported cell out w = (Ok ret, w')
    ∧ ∀ m, (∃ c, c ∈ orderedMimeTypes ret ∧ mimeType c = m)
           ↔ m ∈ (data out).*1.
Proof.
  pose proof (transformMimeTypes_run supported cell out w) as Hrun.
  cbv zeta in Hrun. eexists. eexists. split; [exact Hrun|]. simpl.
  intros m. split.
  - intros (c & (m' & Hm' & Hc)%elem_of_candidates & <-).
    apply candidatesFor_mimeType in Hc as ->.
    exact (proj1 (sort_elem_of (getMimeTypeOrder (this w)) _ _) Hm').
  - intros Hm. apply candidates_of.
    exact (proj2 (sort_elem_of (getMimeTypeOrder (this w)) _ _) Hm).
Qed.

(** X20. The callback that [eventuallyUpdateCells] and
    [eventuallyUpdateCellOutputs] map over outputs passes stream and error
    outputs on as they are, without a renderer; it throws a [TypeError],
    having called no renderer, on a display output without any mimetype;
    and it returns the transformed output on every other display output. *)
Theorem transformOutput_outcomes (supported : string → bool)
    (cell : ExtHostCell) (renderers : list Z) (w : World) :
  (∀ text,
     transformOutput supported cell renderers (CellStreamOutput text) w
     = (Ok (RawOutput (CellStreamOutput text), renderers), w))
  ∧ (∀ ename evalue traceback,
       transformOutput supported cell renderers
         (CellErrorOutput ename evalue traceback) w
       = (Ok (RawOutput (CellErrorOutput ename evalue traceback), renderers), w))
  ∧ (∀ display,
       data display = [] →
       transformOutput supported cell renderers (CellDisplay display) w
       = (Throw TypeError, w))
  ∧ (∀ display,
       data display ≠ [] →
       ∃ ret renderers' w',
         transformMimeTypes supported cell display w = (Ok ret, w')
         ∧ transformOutput supported cell renderers (CellDisplay display) w
           = (Ok (TransformedOutput ret, renderers'), w')).
Proof.
  split; [done|]. split; [done|]. split.
  - intros display Hdata. by apply transformOutput_no_mimetype.
  - intros display Hdata. unfold transformOutput, mbind, M_bind.
    pose proof (transformMimeTypes_run supported cell display w) as Hrun.
    cbv zeta in Hrun. rewrite Hrun. cbn [orderedMimeTypes pickedMimeTypeIndex].
    pose proof (sort_length (λ a b, (Z.of_nat (getMimeTypeOrder (this w) a)
                    - Z.of_nat (getMimeTypeOrder (this w) b))%Z)
                  (data display).*1) as Hlen.
    destruct (sort _ (data display).*1) as [|first rest].
    { destruct (data display); [done|]. simpl in Hlen. lia. }
    simpl.
    destruct (candidatesFor_first supported (this w) cell display first)
      as (c & others & Hc & Hm).
    rewrite Hc. simpl. eauto.
Qed.

(** X21. When a cell is added at the end of the cells and its first output
    is a display output without any mimetype, the [cells] setter throws a
    [TypeError] after it has replaced the cells and made the store of the
    new cell: the document has changed and the remote peer has not been
    called. *)
Theorem set_cells_throws_after_update (supported : string → bool) (w : World)
    (cell : ExtHostCell) (display : CellDisplayOutput) (others : list CellOutput) :
  outputs cell = CellDisplay display :: others →
  data display = [] →
  ∃ w',
    set_cells supported (_cells (this w) ++ [cell]) w = (Throw TypeError, w')
    ∧ _cells (this w') = _cells (this w) ++ [cell]
    ∧ _cellDisposableMapping (this w') !! handle cell
      = Some (mkStore [OutputsListener (handle cell)] false)
    ∧ trace w' = trace w ++ [Subscribed (handle cell)]
    ∧ proxy_calls (trace w') = proxy_calls (trace w).
Proof.
  intros Houtputs Hdata.
  destruct w as [[cells mapping langs order vt u handler] t].
  unfold set_cells, mbind, M_bind, get_this. cbn [this _cells _cellDisposableMapping].
  rewrite DiffMore.diff_append by done.
  unfold eventuallyUpdateCells, spliceToDto, cellToDto, wireCell.
  repeat (progress (unfold mbind, M_bind, mret, M_ret, get_this, set_this, emit;
                    cbn -[transformOutput])).
  rewrite lookup_insert_eq.
  repeat (progress (unfold mbind, M_bind, mret, M_ret, get_this, set_this, emit;
                    cbn -[transformOutput])).
  rewrite Houtputs.
  repeat (progress (unfold mbind, M_bind, mret, M_ret, get_this, set_this, emit;
                    cbn -[transformOutput])).
  rewrite (transformOutput_no_mimetype supported cell [] display _ Hdata).
  eexists. split; [reflexivity|]. simpl.
  split; [done|]. split; [by rewrite lookup_insert_eq|]. split; [done|].
  unfold proxy_calls. rewrite omap_app. simpl. by rewrite app_nil_r.
Qed.

End mime_extras.

(** X16 on the display orders of [Scenario.userPrefersImages]: image/png,
    which the user order matches, ranks before text/plain, which only the
    default order matches. *)
Lemma getMimeTypeOrder_layers_witness :
  Notebook.getMimeTypeOrder Scenario.userPrefersImages "image/png"
  < Notebook.getMimeTypeOrder Scenario.userPrefersImages "text/plain".
Proof.
  eapply (getMimeTypeOrder_layers Scenario.userPrefersImages _
            "image/png" "text/plain" eq_refl).
  - intros p Hp. simpl in Hp. by apply list_elem_of_singleton in Hp as ->.
  - left. exists (Glob.parse "image/*"). split; [by left|done].
Defined.

(** X17 on the display orders of [Scenario.userPrefersImages], at a
    mimetype that no pattern matches. *)
Lemma getMimeTypeOrder_bound_witness :
  Notebook.getMimeTypeOrder Scenario.userPrefersImages "application/json" ≤ 3
  ∧ (Notebook.getMimeTypeOrder Scenario.userPrefersImages "application/json" = 3
     ↔ ∀ p, p ∈ [Glob.parse "image/*"; Glob.parse "text/plain"; Glob.parse "text/html"]
            → p "application/json" = false).
Proof.
  exact (getMimeTypeOrder_bound Scenario.userPrefersImages _ "application/json"
           eq_refl).
Defined.

(** X21 on an empty document and a cell whose only output has no
    mimetype. *)
Lemma set_cells_throws_after_update_witness :
  let display := Notebook.mkDisplayOutput Notebook.display_data [] in
  let cell := Notebook.mkCell 5 ["x"] Notebook.code "python"
                [Notebook.CellDisplay display] in
  let w := Notebook.mkWorld Scenario.twoRenderers [] in
  ∃ w',
    Notebook.set_cells Scenario.noCoreSupport
      (Notebook._cells (Notebook.this w) ++ [cell]) w
    = (Notebook.Throw Notebook.TypeError, w')
    ∧ Notebook._cells (Notebook.this w') = Notebook._cells (Notebook.this w) ++ [cell]
    ∧ Notebook._cellDisposableMapping (Notebook.this w') !! Notebook.handle cell
      = Some (Notebook.mkStore [Notebook.OutputsListener (Notebook.handle cell)] false)
    ∧ Notebook.trace w' = Notebook.trace w ++ [Notebook.Subscribed (Notebook.handle cell)]
    ∧ Notebook.proxy_calls (Notebook.trace w') = Notebook.proxy_calls (Notebook.trace w).
Proof.
  exact (set_cells_throws_after_update Scenario.noCoreSupport
           (Notebook.mkWorld Scenario.twoRenderers [])
           (Notebook.mkCell 5 ["x"] Notebook.code "python"
              [Notebook.CellDisplay (Notebook.mkDisplayOutput Notebook.display_data [])])
           (Notebook.mkDisplayOutput Notebook.display_data []) [] eq_refl eq_refl).
Defined.

(* ===================================================================== *)
(** ** The text of a cell, and the registries of the controller *)
(* ===================================================================== *)

Module CellTextFacts.
Import CellText.

Lemma append_cons (c : ascii) (a b : string) :
  String c a +:+ b = String c (a +:+ b).
Proof. reflexivity. Qed.

Lemma append_empty_l (b : string) : EmptyString +:+ b = b.
Proof. reflexivity. Qed.

Lemma append_empty_r (s : string) : s +:+ EmptyString = s.
Proof. induction s as [|c s IH]; [done|]. by rewrite append_cons, IH. Qed.

Lemma append_append (a b c : string) : (a +:+ b) +:+ c = a +:+ (b +:+ c).
Proof. induction a as [|x a IH]; [done|]. by rewrite !append_cons, IH. Qed.

Lemma count_line_breaks_append (a b : string) :
  count_line_breaks (a +:+ b) = count_line_breaks a + count_line_breaks b.
Proof.
  induction a as [|x a IH]; [done|].
  rewrite append_cons. cbn [count_line_breaks]. rewrite IH. lia.
Qed.

(** The third alternative of the expression never decides: where a carriage
    return stands, the first alternative has matched it alone. *)
Lemma separator_length_cases (c : ascii) (rest : string) :
  separator_length (String c rest)
  = if is_line_break c then Some 1 else None.
Proof.
  unfold separator_length, is_line_break.
  destruct (Ascii.eqb c CR) eqn:Hcr; [done|].
  by destruct (Ascii.eqb c LF).
Qed.

Lemma split_from_step (piece : string) (c : ascii) (rest : string) :
  split_from piece (String c rest)
  = if is_line_break c then piece :: split_from EmptyString rest
    else split_from (piece +:+ String c EmptyString) rest.
Proof.
  change (split_from piece (String c rest))
    with (match separator_length (String c rest) with
          | None => split_from (piece +:+ String c EmptyString) rest
          | Some 1 => piece :: split_from EmptyString rest
          | Some _ =>
              piece :: match rest with
                       | String _ rest' => split_from EmptyString rest'
                       | EmptyString => [EmptyString]
                       end
          end).
  rewrite separator_length_cases. by destruct (is_line_break c).
Qed.

Lemma split_from_cons (piece s : string) :
  ∃ first rest, split_from piece s = first :: rest.
Proof.
  revert piece. induction s as [|c s IH]; intros piece; [by eexists _, _|].
  rewrite split_from_step. destruct (is_line_break c); [by eexists _, _|].
  apply IH.
Qed.

Lemma join_cons (separator x : string) (parts : list string) :
  parts ≠ [] →
  join separator (x :: parts) = x +:+ separator +:+ join separator parts.
Proof. by destruct parts. Qed.

Lemma join_split_from (piece s : string) :
  join (String LF EmptyString) (split_from piece s) = piece +:+ lf_only s.
Proof.
  revert piece. induction s as [|c s IH]; intros piece.
  { cbn [split_from join lf_only]. symmetry. apply append_empty_r. }
  rewrite split_from_step. unfold is_line_break.
  destruct (Ascii.eqb c CR) eqn:Hcr; simpl orb; cbn [lf_only]; rewrite Hcr.
  - destruct (split_from_cons EmptyString s) as (first & rest & Hsplit).
    rewrite join_cons by (by rewrite Hsplit).
    by rewrite IH, append_empty_l, append_cons, append_empty_l.
  - destruct (Ascii.eqb c LF) eqn:Hlf.
    + apply Ascii.eqb_eq in Hlf as ->.
      destruct (split_from_cons EmptyString s) as (first & rest & Hsplit).
      rewrite join_cons by (by rewrite Hsplit).
      by rewrite IH, append_empty_l, append_cons, append_empty_l.
    + by rewrite IH, append_append, append_cons, append_empty_l.
Qed.

Lemma split_from_length (piece s : string) :
  length (split_from piece s) = S (count_line_breaks s).
Proof.
  revert piece. induction s as [|c s IH]; intros piece; [done|].
  rewrite split_from_step. cbn [count_line_breaks].
  destruct (is_line_break c); [simpl|]; by rewrite IH.
Qed.

Lemma split_from_lines (piece s : string) :
  count_line_breaks piece = 0 →
  Forall (λ line, count_line_breaks line = 0) (split_from piece s).
Proof.
  revert piece. induction s as [|c s IH]; intros piece Hpiece.
  { by apply Forall_singleton. }
  rewrite split_from_step. destruct (is_line_break c) eqn:Hc.
  - apply Forall_cons. split; [done|]. by apply IH.
  - apply IH. rewrite count_line_breaks_append. simpl. rewrite Hc. lia.
Qed.

Lemma lf_only_fixed (s : string) :
  lf_only s = s ↔ Forall (λ c, c ≠ CR) (Strings.String.list_ascii_of_string s).
Proof.
  induction s as [|c s IH]; simpl.
  { split; [constructor|done]. }
  rewrite Forall_cons, <- IH. destruct (Ascii.eqb c CR) eqn:Hcr.
  - apply Ascii.eqb_eq in Hcr as ->. split; [|by intros [[] _]].
    intros Heq. by injection Heq.
  - apply Ascii.eqb_neq in Hcr. split.
    + intros Heq. by injection Heq.
    + by intros [_ ->].
Qed.

End CellTextFacts.

(** *** Renderers by handle *)

Module RegistryFacts.
Import Notebook Registry.

Lemma Map_set_fresh (r : ExtHostNotebookOutputRenderer) entries :
  renderer_handle r ∉ renderer_handle <$> entries →
  Map_set r entries = entries ++ [r].
Proof.
  induction entries as [|e entries IH]; intros Hfresh; [done|].
  rewrite fmap_cons, not_elem_of_cons in Hfresh. destruct Hfresh as [Hne Hfresh].
  simpl. rewrite bool_decide_eq_false_2 by done. by rewrite IH.
Qed.

Lemma Map_delete_other (handle0 : Z) entries :
  handle0 ∉ renderer_handle <$> entries → Map_delete handle0 entries = entries.
Proof.
  unfold Map_delete. induction entries as [|e entries IH]; intros Hfresh; [done|].
  rewrite fmap_cons, not_elem_of_cons in Hfresh. destruct Hfresh as [Hne Hfresh].
  rewrite filter_cons_True by done. by rewrite IH.
Qed.

Lemma handles_below (c : ExtHostNotebookController) :
  handles_drawn c →
  _handlePool c ∉ renderer_handle <$> _notebookOutputRenderers (rendering c).
Proof.
  intros [_ Hbelow] Hin. apply list_elem_of_fmap in Hin as (r & Heq & Hr).
  rewrite Forall_forall in Hbelow. specialize (Hbelow r Hr). lia.
Qed.

End RegistryFacts.

Section text_extras.
Import CellText CellTextFacts.

(** X22. What a new cell gives as its content is the text it was built
    from with every carriage return replaced by a line feed; it is that
    text itself exactly when the text holds no carriage return. *)
Theorem getContent_new_cell (documents : nat → TextDocument) (content : string) :
  getContent documents (new_ExtHostCell content) = lf_only content
  ∧ (getContent documents (new_ExtHostCell content) = content
     ↔ Forall (λ c, c ≠ CR) (Strings.String.list_ascii_of_string content)).
Proof.
  assert (getContent documents (new_ExtHostCell content) = lf_only content) as ->.
  { unfold getContent, new_ExtHostCell, split_lines. cbn [_textDocument source].
    by rewrite join_split_from. }
  split; [done|]. apply lf_only_fixed.
Qed.

(** X23. The constructor cuts the text at every carriage return and at
    every line feed, each on its own: the lines hold neither, and there
    is one more line than there are such characters, so that a carriage
    return followed by a line feed leaves an empty line between. *)
Theorem new_cell_lines (content : string) :
  length (source (new_ExtHostCell content)) = S (count_line_breaks content)
  ∧ Forall (λ line, count_line_breaks line = 0) (source (new_ExtHostCell content))
  ∧ ∀ before after,
      source (new_ExtHostCell (before +:+ String CR (String LF after)))
      = source (new_ExtHostCell (before +:+ String LF (String LF after))).
Proof.
  unfold new_ExtHostCell, split_lines. cbn [source]. split; [|split].
  - apply split_from_length.
  - by apply split_from_lines.
  - intros before after. generalize EmptyString as piece.
    induction before as [|c before IH]; intros piece.
    + rewrite !append_empty_l. by rewrite !split_from_step.
    + rewrite !append_cons, !split_from_step. by rewrite !IH.
Qed.

(** X24. With a text document attached, a cell answers with its own lines
    as long as the document is at the version it was attached at, and
    with the text of the document once the version has moved. Detaching
    takes the text of the document over into the lines only in the second
    case; the document passed to it plays no part. *)
Theorem attach_detach (attached later : nat → TextDocument)
    (cell : ExtHostCellText) (document other : nat) :
  let cell1 := attachTextDocument attached document cell in
  let cell2 := detachTextDocument later other cell1 in
  (version (later document) = version (attached document) →
     getContent later cell1 = join (String LF EmptyString) (source cell)
     ∧ cell2 = mkCellText (source cell) None (-1))
  ∧ (version (later document) ≠ version (attached document) →
     getContent later cell1 = getText (later document)
     ∧ cell2 = new_ExtHostCell (getText (later document))
     ∧ getContent later cell2 = lf_only (getText (later document))).
Proof.
  cbv zeta. unfold attachTextDocument, detachTextDocument, getContent.
  cbn [_textDocument _initalVersion source]. split; intros Hversion.
  - rewrite !bool_decide_eq_false_2 by (intros Hne; by apply Hne). done.
  - rewrite !bool_decide_eq_true_2 by (intros Heq; by apply Hversion).
    split; [done|]. split; [done|].
    unfold split_lines. by rewrite join_split_from.
Qed.

End text_extras.

Section registry_extras.
Import Notebook Registry RegistryFacts.

(** X25. Registering an output renderer gives it a handle that no
    registered renderer has, and puts it behind the others: for every
    mimetype, the renderers found are those found before, followed by
    the new one when it matches. *)
Theorem registerNotebookOutputRenderer_last (c : ExtHostNotebookController)
    (type0 extension : string) (filter0 : option (list string))
    (render0 : ExtHostCell → CellDisplayOutput → string → string)
    (preloads : list string) :
  let registered :=
    registerNotebookOutputRenderer type0 extension filter0 render0 preloads c in
  let new := mkRenderer registered.1 type0 filter0 render0 in
  handles_drawn c →
  handles_drawn registered.2
  ∧ (registered.1 ∉ renderer_handle <$> _notebookOutputRenderers (rendering c))
  ∧ ∀ mimeType0,
      findBestMatchedRenderer (rendering registered.2) mimeType0
      = findBestMatchedRenderer (rendering c) mimeType0
        ++ (if matches new mimeType0 then [new] else []).
Proof.
  cbv zeta. intros Hdrawn. pose proof (handles_below c Hdrawn) as Hfresh.
  destruct Hdrawn as [Hnodup Hbelow].
  unfold registerNotebookOutputRenderer, handles_drawn, findBestMatchedRenderer.
  cbn [fst snd rendering _notebookOutputRenderers _handlePool renderer_handle].
  rewrite Map_set_fresh by done. split; [split|split; [done|]].
  - rewrite fmap_app. apply NoDup_app. split; [done|]. split.
    + intros h Hh Hnew. apply list_elem_of_singleton in Hnew. simpl in Hnew.
      by subst h.
    + apply NoDup_singleton.
  - rewrite Forall_app, Forall_singleton. split; [|simpl; lia].
    eapply Forall_impl; [exact Hbelow|]. intros r Hr. simpl in Hr. lia.
  - intros mimeType0. rewrite filter_app. f_equal.
    destruct (matches _ mimeType0) eqn:Hmatch.
    + by rewrite filter_cons_True.
    + rewrite filter_cons_False; [done|]. by rewrite Hmatch.
Qed.

(** X26. Disposing of what the registration of an output renderer
    returned leaves the renderers as they were before it, whatever was
    registered in between stays, and the remote peer has been told of
    the registration and then of its end. *)
Theorem registerNotebookOutputRenderer_dispose (c : ExtHostNotebookController)
    (type0 extension : string) (filter0 : option (list string))
    (render0 : ExtHostCell → CellDisplayOutput → string → string)
    (preloads : list string) :
  let registered :=
    registerNotebookOutputRenderer type0 extension filter0 render0 preloads c in
  handles_drawn c →
  rendering (dispose_renderer registered.1 registered.2) = rendering c
  ∧ calls (dispose_renderer registered.1 registered.2)
    = calls c
      ++ [call_registerNotebookRenderer extension type0 filter0 registered.1 preloads;
          call_unregisterNotebookRenderer registered.1]
  ∧ ∀ type1 extension1 filter1 render1 preloads1,
      let between :=
        registerNotebookOutputRenderer type1 extension1 filter1 render1 preloads1
          registered.2 in
      _notebookOutputRenderers (rendering (dispose_renderer registered.1 between.2))
      = _notebookOutputRenderers (rendering c)
        ++ [mkRenderer between.1 type1 filter1 render1]
      ∧ handles_drawn (dispose_renderer registered.1 between.2).
Proof.
  cbv zeta. intros Hdrawn. pose proof (handles_below c Hdrawn) as Hfresh.
  destruct Hdrawn as [Hnodup Hbelow].
  assert (Hdelete : ∀ rest,
    _handlePool c ∉ renderer_handle <$> rest →
    Map_delete (_handlePool c)
      ((_notebookOutputRenderers (rendering c)
          ++ [mkRenderer (_handlePool c) type0 filter0 render0]) ++ rest)
    = _notebookOutputRenderers (rendering c) ++ rest).
  { intros rest Hrest. unfold Map_delete. rewrite !filter_app.
    fold (Map_delete (_handlePool c) (_notebookOutputRenderers (rendering c))).
    fold (Map_delete (_handlePool c) rest).
    rewrite !Map_delete_other by done.
    rewrite filter_cons_False by (simpl; by intros Hne).
    by rewrite filter_nil, app_nil_r. }
  unfold registerNotebookOutputRenderer, dispose_renderer, handles_drawn.
  cbn [fst snd rendering _notebookOutputRenderers _handlePool renderer_handle
       calls outputDisplayOrder].
  rewrite Map_set_fresh by done. split; [|split].
  - specialize (Hdelete [] ltac:(by rewrite fmap_nil; apply not_elem_of_nil)).
    rewrite !app_nil_r in Hdelete. rewrite Hdelete. by destruct (rendering c).
  - by rewrite <- app_assoc.
  - intros type1 extension1 filter1 render1 preloads1.
    assert (Hnext : (_handlePool c + 1)%Z
                    ∉ renderer_handle <$> (_notebookOutputRenderers (rendering c)
                         ++ [mkRenderer (_handlePool c) type0 filter0 render0])).
    { rewrite fmap_app, elem_of_app. intros [Hin|Hin].
      - apply list_elem_of_fmap in Hin as (r & Heq & Hr).
        rewrite Forall_forall in Hbelow. specialize (Hbelow r Hr). lia.
      - apply list_elem_of_singleton in Hin. simpl in Hin. lia. }
    rewrite Map_set_fresh by done.
    rewrite Hdelete.
    2:{ intros Hin. apply list_elem_of_singleton in Hin. simpl in Hin. lia. }
    split; [done|]. split.
    + rewrite fmap_app. apply NoDup_app. split; [done|]. split.
      * intros h Hh Hnew. apply list_elem_of_singleton in Hnew. simpl in Hnew.
        subst h. apply list_elem_of_fmap in Hh as (r & Heq & Hr).
        rewrite Forall_forall in Hbelow. specialize (Hbelow r Hr). lia.
      * apply NoDup_singleton.
    + rewrite Forall_app, Forall_singleton. split; [|simpl; lia].
      eapply Forall_impl; [exact Hbelow|]. intros r Hr. simpl in Hr. lia.
Qed.

(** X27. A view type takes one notebook provider at a time: once a
    provider is registered for it, registering another one throws and
    changes nothing, until the first registration has been disposed of,
    which gives the providers back as they were. *)
Theorem registerNotebookProvider_once (c : ExtHostNotebookController)
    (extension extension1 viewType0 : string) :
  _notebookProviders c !! viewType0 = None →
  ∃ c1,
    registerNotebookProvider extension viewType0 c = Registered c1
    ∧ _notebookProviders c1 !! viewType0 = Some extension
    ∧ registerNotebookProvider extension1 viewType0 c1 = AlreadyRegistered viewType0
    ∧ _notebookProviders (dispose_provider viewType0 c1) = _notebookProviders c
    ∧ ∃ c2, registerNotebookProvider extension1 viewType0
              (dispose_provider viewType0 c1) = Registered c2.
Proof.
  intros Hfree. unfold registerNotebookProvider at 1.
  rewrite bool_decide_eq_false_2 by (rewrite Hfree; by intros [? ?]).
  eexists. split; [done|]. cbn [_notebookProviders].
  split; [by rewrite lookup_insert_eq|]. split; [|split].
  - unfold registerNotebookProvider. cbn [_notebookProviders].
    by rewrite bool_decide_eq_true_2 by (rewrite lookup_insert_eq; by eexists).
  - unfold dispose_provider. cbn [_notebookProviders].
    by rewrite delete_insert_eq, delete_id.
  - unfold registerNotebookProvider, dispose_provider. cbn [_notebookProviders].
    rewrite bool_decide_eq_false_2; [by eexists|].
    rewrite lookup_delete_eq. by intros [? ?].
Qed.

End registry_extras.

Lemma registerNotebookOutputRenderer_last_witness :
  let c := Registry.mkController ∅
             (Notebook.mkHandler None [Scenario.textRenderer; Scenario.imageRenderer])
             12 [] in
  let registered :=
    Registry.registerNotebookOutputRenderer "svg" "ext" (Some ["image/svg+xml"])
      (λ _ _ _, "<svg/>") [] c in
  registered.1 = 12%Z
  ∧ Notebook.renderer_handle
      <$> Notebook.findBestMatchedRenderer (Registry.rendering registered.2)
            "image/svg+xml"
    = (Notebook.renderer_handle
         <$> Notebook.findBestMatchedRenderer (Registry.rendering c) "image/svg+xml")
      ++ [12%Z].
Proof.
  cbv zeta. split; [reflexivity|].
  pose proof (registerNotebookOutputRenderer_last
    (Registry.mkController ∅
       (Notebook.mkHandler None [Scenario.textRenderer; Scenario.imageRenderer])
       12 [])
    "svg" "ext" (Some ["image/svg+xml"]) (λ _ _ _, "<svg/>") []) as Hlast.
  cbv zeta in Hlast.
  destruct Hlast as (_ & _ & Hfound).
  { split.
    - apply (bool_decide_unpack _). by vm_compute.
    - repeat constructor; vm_compute; done. }
  rewrite Hfound. rewrite fmap_app. f_equal.
Defined.

Lemma registerNotebookOutputRenderer_dispose_witness :
  let c := Registry.mkController ∅
             (Notebook.mkHandler None [Scenario.textRenderer; Scenario.imageRenderer])
             12 [] in
  let registered :=
    Registry.registerNotebookOutputRenderer "svg" "ext" (Some ["image/svg+xml"])
      (λ _ _ _, "<svg/>") [] c in
  Registry.rendering (Registry.dispose_renderer registered.1 registered.2)
  = Registry.rendering c.
Proof.
  cbv zeta.
  refine (proj1 (registerNotebookOutputRenderer_dispose
    (Registry.mkController ∅
       (Notebook.mkHandler None [Scenario.textRenderer; Scenario.imageRenderer])
       12 [])
    "svg" "ext" (Some ["image/svg+xml"]) (λ _ _ _, "<svg/>") [] _)).
  split.
  - apply (bool_decide_unpack _). by vm_compute.
  - repeat constructor; vm_compute; done.
Defined.

Lemma registerNotebookProvider_once_witness :
  ∃ c1,
    Registry.registerNotebookProvider "ext" "jupyter"
      (Registry.mkController ∅ (Notebook.mkHandler None []) 0 []) = Registry.Registered c1
    ∧ Registry.registerNotebookProvider "other" "jupyter" c1
      = Registry.AlreadyRegistered "jupyter".
Proof.
  destruct (registerNotebookProvider_once
    (Registry.mkController ∅ (Notebook.mkHandler None []) 0 [])
    "ext" "other" "jupyter" (lookup_empty _)) as (c1 & Hregistered & _ & Hagain & _).
  by exists c1.
Defined.

Lemma attach_detach_witness :
  let attached := λ _ : nat, CellText.mkTextDocument 1 "a" in
  let later := λ _ : nat, CellText.mkTextDocument 2 "b" in
  let cell1 := CellText.attachTextDocument attached 0 (CellText.new_ExtHostCell "a") in
  CellText.getContent later cell1 = "b"
  ∧ CellText.detachTextDocument later 7 cell1 = CellText.new_ExtHostCell "b".
Proof.
  cbv zeta.
  pose proof (attach_detach (λ _ : nat, CellText.mkTextDocument 1 "a")
    (λ _ : nat, CellText.mkTextDocument 2 "b") (CellText.new_ExtHostCell "a") 0 7)
    as Hround.
  cbv zeta in Hround. destruct Hround as [_ Hmoved].
  destruct Hmoved as (Hcontent & Hdetached & _); [by vm_compute|].
  split; [exact Hcontent|exact Hdetached].
Defined.

(* ===================================================================== *)
(** ** Looking a cell up *)
(* ===================================================================== *)

Section lookup_extras.
Import Notebook NotebookOps.

(** X28. Looking a cell up by its handle gives the first cell of the
    document that has the handle, and nothing exactly when no cell has
    it. *)
Theorem getCell_first (doc : ExtHostNotebookDocument) (i : nat) (cell : ExtHostCell) :
  _cells doc !! i = Some cell →
  (∀ j other, j < i → _cells doc !! j = Some other → handle other ≠ handle cell) →
  getCell doc (handle cell) = Some cell
  ∧ ∀ cellHandle,
      getCell doc cellHandle = None ↔ cellHandle ∉ handle <$> _cells doc.
Proof.
  unfold getCell. generalize (_cells doc) as cells. intros cells Hcell Hfirst.
  split.
  - revert i Hcell Hfirst. induction cells as [|c cells IH]; intros i Hcell Hfirst.
    + by rewrite lookup_nil in Hcell.
    + destruct i as [|i].
      * injection Hcell as ->. simpl. by rewrite bool_decide_eq_true_2.
      * simpl. rewrite bool_decide_eq_false_2.
        -- apply (IH i); [done|]. intros j other Hj Hother.
           apply (Hfirst (S j) other); [lia|done].
        -- apply (Hfirst 0 c); [lia|done].
  - intros cellHandle. clear Hcell Hfirst.
    induction cells as [|c cells IH]; simpl.
    + split; [intros _; apply not_elem_of_nil|done].
    + rewrite not_elem_of_cons, <- IH.
      destruct (bool_decide (handle c = cellHandle)) eqn:Hc.
      * apply bool_decide_eq_true in Hc. split; [done|]. by intros [Hne _].
      * apply bool_decide_eq_false in Hc. split; [|by intros [_ ?]].
        intros Hnone. split; [|done]. by intros ->.
Qed.

End lookup_extras.

Lemma getCell_first_witness :
  NotebookOps.getCell Scenario.threeCells 2 = Some Scenario.cell2.
Proof.
  refine (proj1 (getCell_first Scenario.threeCells 1 Scenario.cell2 eq_refl _)).
  intros j other Hj Hother. assert (j = 0) as -> by lia.
  injection Hother as <-. by vm_compute.
Defined.
